(** * Travel-destination recommender: category overlap scorer, ranking,
      and the offline hybrid-index builder

    Shallow embedding of [src/app.py] (online recommender) and
    [src/model_train.py] (offline builder).

    Modelling conventions.
    - A Python [str] is a [string]; each [ascii] stands for the code point
      of the same number (U+0000 .. U+00FF).  [str.strip], [str.lower] and
      [str.split(',')] are written out for that range.
    - A Python [set] of strings is a [gset string]; [len] is [size].
    - A Python [float] is an exact rational ([Qc]): scores are quotients of
      two small integers and popularity values are finite, so comparisons
      of the rationals agree with the comparisons the code performs.  NaN
      and infinities are outside the model.
    - A cell of a data frame, or a JSON value, that may or may not be a
      string is a [pyval].
    - [try: ... except Exception] is an error monad whose handler is written
      out at each function. *)

From Stdlib Require Import Ascii String QArith Qcanon.
From stdpp Require Import base numbers list sorting gmap strings pretty.

Local Open Scope string_scope.
Local Open Scope list_scope.

(** ** Python values and exceptions *)

Inductive pyval : Type :=
  | PyStr (s : string)     (* str *)
  | PyInt (z : Z)          (* int *)
  | PyNaN                  (* float('nan'): a missing cell *)
  | PyNone.                (* None *)

Inductive pyexn : Type :=
  | AttributeError
  | ZeroDivisionError
  | ValueError
  | FloatingPointError.

Inductive result (A : Type) : Type :=
  | Ok (a : A)
  | Raise (e : pyexn).
Arguments Ok {A} a.
Arguments Raise {A} e.

Global Instance result_ret : MRet result := λ A a, Ok a.
Global Instance result_bind : MBind result := λ A B k m,
  match m with
  | Ok a => k a
  | Raise e => Raise e
  end.

(** [try: body except Exception: return dflt] *)
Definition try_except {A} (body : result A) (dflt : A) : A :=
  match body with
  | Ok a => a
  | Raise _ => dflt
  end.

(** [mapM] over a list in the error monad: the first exception wins. *)
Fixpoint for_each {A B} (f : A → result B) (l : list A) : result (list B) :=
  match l with
  | [] => Ok []
  | x :: l' => y ← f x ; ys ← for_each f l' ; Ok (y :: ys)
  end.

(** [str(v)] *)
Definition py_str (v : pyval) : string :=
  match v with
  | PyStr s => s
  | PyInt z => pretty z
  | PyNaN => "nan"
  | PyNone => "None"
  end.

(** Truthiness, as tested by [if v:] *)
Definition truthy (v : pyval) : bool :=
  match v with
  | PyStr s => negb (String.eqb s "")
  | PyInt z => negb (Z.eqb z 0)
  | PyNaN => true
  | PyNone => false
  end.

(** ** String methods *)

(** [c.isspace()] for a code point below 256. *)
Definition is_space (c : ascii) : bool :=
  let n := N_of_ascii c in
  ((9 <=? n) && (n <=? 13) || (28 <=? n) && (n <=? 32)
   || (n =? 133) || (n =? 160))%N.

(** [c.lower()] for a code point below 256: A-Z and the Latin-1 capitals
    (U+00C0 .. U+00DE except the multiplication sign U+00D7). *)
Definition lower_char (c : ascii) : ascii :=
  let n := N_of_ascii c in
  if ((65 <=? n) && (n <=? 90)
      || (192 <=? n) && (n <=? 222) && negb (n =? 215))%N
  then ascii_of_N (n + 32) else c.

Fixpoint lower (s : string) : string :=
  match s with
  | "" => ""
  | String c s' => String (lower_char c) (lower s')
  end.

Fixpoint lstrip (s : string) : string :=
  match s with
  | "" => ""
  | String c s' => if is_space c then lstrip s' else s
  end.

Fixpoint rstrip (s : string) : string :=
  match s with
  | "" => ""
  | String c s' =>
      match rstrip s' with
      | "" => if is_space c then "" else String c ""
      | t => String c t
      end
  end.

Definition strip (s : string) : string := rstrip (lstrip s).

(** [s.split(',')]: one more token than there are commas, empty tokens
    kept. *)
Fixpoint split_comma (s : string) : list string :=
  match s with
  | "" => [""]
  | String c s' =>
      if Ascii.eqb c ","
      then "" :: split_comma s'
      else match split_comma s' with
           | t :: ts => String c t :: ts
           | [] => [String c ""]
           end
  end.

(** [v.split(',')] on an arbitrary value: only [str] has the method. *)
Definition py_split (v : pyval) : result (list string) :=
  match v with
  | PyStr s => Ok (split_comma s)
  | _ => Raise AttributeError
  end.

(** [a / b] on two ints. *)
Definition py_truediv (a b : nat) : result Qc :=
  if decide (b = 0%nat) then Raise ZeroDivisionError
  else Ok (Qc_of_Z (Z.of_nat a) / Qc_of_Z (Z.of_nat b))%Qc.

(** ** app.py: the overlap scorer *)

Definition calculate_similarity_score
    (query_categories destination_categories : pyval) : Qc :=
  try_except
    (qtoks ← py_split query_categories ;
     let query_cats : gset string :=
       list_to_set ((λ cat, lower (strip cat)) <$> qtoks) in
     dtoks ← py_split destination_categories ;
     let dest_cats : gset string :=
       list_to_set ((λ cat, lower (strip cat)) <$> dtoks) in
     if decide (query_cats = ∅) then Ok 0%Qc
     else
       let common_cats := query_cats ∩ dest_cats in
       py_truediv (size common_cats) (size query_cats))
    0%Qc.

(** ** app.py: the catalog *)

(** A row of [destinations_df].  Every cell but the popularity score is
    kept as the value pandas read; the code converts with [str(...)] when
    it builds a recommendation.  The popularity score is a number: a blank
    cell of an existing PopularityScore column (NaN, which lines 20-21 do
    not fill in) is outside the model. *)
Record Destination : Type := mkDestination {
  dest_Name : pyval;
  dest_District : pyval;
  dest_State : pyval;
  dest_Category : pyval;
  dest_BestTimeToVisit : pyval;
  dest_PopularityScore : Qc
}.

(** A cell of the two count columns, as [int(...)] sees it: a number, with
    the integer [int] makes of it, or a cell [int] rejects.  A blank cell
    is NaN, and [int(nan)] raises ValueError. *)
Inductive count_cell : Type :=
  | CountNumber (z : Z)
  | CountBlank.

(** [int(cell)] *)
Definition py_int (cell : count_cell) : result Z :=
  match cell with
  | CountNumber z => Ok z
  | CountBlank => Raise ValueError
  end.

(** A row of [users_df]. *)
Record User : Type := mkUser {
  user_UserID : pyval;
  user_Name : pyval;
  user_Gender : pyval;
  user_Location : pyval;
  user_TravelPreferences : pyval;
  user_NumberOfAdults : count_cell;
  user_NumberOfChildren : count_cell
}.

(** The dict appended to [recommendations]. *)
Record Recommendation : Type := mkRecommendation {
  Name : string;
  Category : string;
  District : string;
  State : string;
  BestTimeToVisit : string;
  MatchScore : Qc;
  PopularityScore : Qc
}.

(** [a == b] on two scalars: NaN equals nothing, values of different
    types differ. *)
Definition py_eq (a b : pyval) : bool :=
  match a, b with
  | PyStr s, PyStr t => String.eqb s t
  | PyInt x, PyInt y => Z.eqb x y
  | PyNone, PyNone => true
  | _, _ => false
  end.

(** One entry of the mask [column == v]: pandas compares entry by entry
    and a missing cell (NaN or None) equals nothing. *)
Definition series_eq (cell v : pyval) : bool :=
  match cell with
  | PyNaN | PyNone => false
  | _ => py_eq cell v
  end.

(** ** app.py: ranking *)

(** [k1 < k2] on the tuples [(MatchScore, PopularityScore)]: the first
    component that differs decides. *)
Definition key_lt (k1 k2 : Qc * Qc) : bool :=
  if decide (k1.1 = k2.1) then bool_decide (k1.2 < k2.2)%Qc
  else bool_decide (k1.1 < k2.1)%Qc.

Definition sort_key (x : Recommendation) : Qc * Qc :=
  (MatchScore x, PopularityScore x).

(** [list.sort(key=..., reverse=True)]: descending and stable, so an
    element goes in front of the elements it does not compare below. *)
Fixpoint insert_reverse (x : Recommendation) (l : list Recommendation)
    : list Recommendation :=
  match l with
  | [] => [x]
  | y :: l' =>
      if key_lt (sort_key x) (sort_key y) then y :: insert_reverse x l'
      else x :: l
  end.

Definition sort_reverse (l : list Recommendation) : list Recommendation :=
  foldr insert_reverse [] l.

(** The dict literal of the three loops. *)
Definition recommendation_of (dest : Destination) (score : Qc)
    : Recommendation :=
  {| Name := py_str (dest_Name dest);
     Category := py_str (dest_Category dest);
     District := py_str (dest_District dest);
     State := py_str (dest_State dest);
     BestTimeToVisit := py_str (dest_BestTimeToVisit dest);
     MatchScore := score;
     PopularityScore := dest_PopularityScore dest |}.

Section Recommender.
(** The two module-level data frames. *)
Variable destinations_df : list Destination.
Variable users_df : list User.

(** In the three functions below the body of [try] is written in the error
    monad and the handler [except Exception: return []] is applied to it.
    The scorer has a handler of its own, and [str(...)] and [float(...)]
    accept every cell of the model. *)

Definition get_recommendations_by_destination (destination_name : pyval)
    : list Recommendation :=
  try_except
    (let selected_dest :=
       filter (λ d, series_eq (dest_Name d) destination_name = true)
              destinations_df in
     match selected_dest with
     | [] => Ok []
     | selected_dest :: _ =>
         let recommendations :=
           foldl (λ recommendations dest,
                    if negb (py_eq (dest_Name dest) destination_name) then
                      let score :=
                        calculate_similarity_score
                          (dest_Category selected_dest)
                          (dest_Category dest) in
                      if bool_decide (0 < score)%Qc
                      then recommendations ++ [recommendation_of dest score]
                      else recommendations
                    else recommendations)
                 [] destinations_df in
         Ok (take 10 (sort_reverse recommendations))
     end)
    [].

Definition get_recommendations_by_user (user_id : pyval)
    : list Recommendation :=
  try_except
    (let user :=
       filter (λ u, py_str (user_UserID u) = py_str user_id) users_df in
     match user with
     | [] => Ok []
     | user :: _ =>
         let recommendations :=
           foldl (λ recommendations dest,
                    let score :=
                      calculate_similarity_score
                        (user_TravelPreferences user) (dest_Category dest) in
                    if bool_decide (0 < score)%Qc
                    then recommendations ++ [recommendation_of dest score]
                    else recommendations)
                 [] destinations_df in
         Ok (take 10 (sort_reverse recommendations))
     end)
    [].

Definition get_custom_recommendations (preferences state : pyval)
    : list Recommendation :=
  try_except
    (let filtered_df :=
       if truthy state
       then filter (λ d, series_eq (dest_State d) state = true)
                   destinations_df
       else destinations_df in
     let recommendations :=
       foldl (λ recommendations dest,
                let score :=
                  calculate_similarity_score preferences
                    (dest_Category dest) in
                if bool_decide (0 < score)%Qc
                then recommendations ++ [recommendation_of dest score]
                else recommendations)
             [] filtered_df in
     Ok (take 10 (sort_reverse recommendations)))
    [].

End Recommender.

(** ** model_train.py: the offline builder *)

Global Instance pyval_eq_dec : EqDecision pyval.
Proof. solve_decision. Defined.

(** [Series.str.strip()]: cells that are not strings become NaN. *)
Definition str_strip (cell : pyval) : pyval :=
  match cell with
  | PyStr s => PyStr (strip s)
  | _ => PyNaN
  end.

(** [Series.str.split(',').explode()]: one row per token, NaN kept. *)
Definition str_split_explode (column : list pyval) : list pyval :=
  column ≫= λ cell,
    match cell with
    | PyStr s => PyStr <$> split_comma s
    | _ => [PyNaN]
    end.

(** [Series.unique()]: first occurrences, in order of appearance. *)
Fixpoint unique_go (seen l : list pyval) : list pyval :=
  match l with
  | [] => []
  | x :: l' =>
      if decide (x ∈ seen) then unique_go seen l'
      else x :: unique_go (x :: seen) l'
  end.
Definition unique (l : list pyval) : list pyval := unique_go [] l.

(** [pref.strip()] in the comprehension: a NaN has no such method. *)
Definition py_strip (pref : pyval) : result string :=
  match pref with
  | PyStr s => Ok (strip s)
  | _ => Raise AttributeError
  end.

(** [sorted(list(set(...)))] on strings: code-point order. *)
Definition sorted_set (l : list string) : list string :=
  merge_sort String.le (elements (list_to_set l : gset string)).

(** Lines 30-33. [Category] is the column after line 25. *)
Definition unique_preferences (Category : list pyval) : result (list string) :=
  prefs ← for_each py_strip (unique (str_split_explode Category)) ;
  Ok (sorted_set prefs).

Definition get_category_match_score (dest_category : pyval)
    (preference : string) : result Qc :=
  toks ← py_split dest_category ;
  let dest_cats : list string := (λ cat, lower (strip cat)) <$> toks in
  Ok (if decide (lower preference ∈ dest_cats) then 1%Qc else 0%Qc).

(** A two-dimensional array, as the list of its rows. *)
Abbreviation ndarray := (list (list Qc)).

(** Entry-wise application, as numpy broadcasts a scalar operation. *)
Definition mat_map (f : Qc → Qc) (m : ndarray) : ndarray :=
  map (map f) m.

Definition Qc_min (x y : Qc) : Qc := if decide (x ≤ y)%Qc then x else y.
Definition Qc_max (x y : Qc) : Qc := if decide (x ≤ y)%Qc then y else x.

(** [matrix.min()], [matrix.max()]: over all entries; numpy raises
    ValueError on an array without entries. *)
Definition mat_min (m : ndarray) : result Qc :=
  match concat m with
  | [] => Raise ValueError
  | x :: xs => Ok (foldl Qc_min x xs)
  end.
Definition mat_max (m : ndarray) : result Qc :=
  match concat m with
  | [] => Raise ValueError
  | x :: xs => Ok (foldl Qc_max x xs)
  end.

(** [matrix - c], [c * matrix] *)
Definition mat_sub_scalar (m : ndarray) (c : Qc) : ndarray :=
  mat_map (λ x, x - c)%Qc m.
Definition mat_scale (c : Qc) (m : ndarray) : ndarray :=
  mat_map (λ x, c * x)%Qc m.

(** [matrix / c].  A zero divisor would give inf or nan entries, which the
    rational model does not contain; the model reports it as an exception
    so that a result [Ok _] certifies a non-zero divisor. *)
Definition mat_div_scalar (m : ndarray) (c : Qc) : result ndarray :=
  if decide (c = 0%Qc) then Raise FloatingPointError
  else Ok (mat_map (λ x, x / c)%Qc m).

(** [a + b] on arrays of the same shape; numpy raises ValueError when
    the shapes cannot be combined. *)
Definition mat_add (a b : ndarray) : result ndarray :=
  if decide (length <$> a = length <$> b)
  then Ok (zip_with (zip_with Qcplus) a b)
  else Raise ValueError.

Definition ncols (m : ndarray) : nat :=
  match m with
  | [] => 0
  | row :: _ => length row
  end.

(** [m.T] *)
Definition transpose (m : ndarray) : ndarray :=
  map (λ j, map (λ row, nth j row 0%Qc) m) (seq 0 (ncols m)).

Definition inner (u v : list Qc) : Qc :=
  foldr Qcplus 0%Qc (zip_with Qcmult u v).

(** [np.dot(a, b)] *)
Definition dot (a b : ndarray) : ndarray :=
  map (λ row, map (λ col, inner row col) (transpose b)) a.

(** Lines 59-65. *)
Definition normalize_matrix (matrix : ndarray) : result ndarray :=
  min_val ← mat_min matrix ;
  max_val ← mat_max matrix ;
  if bool_decide (0 < max_val - min_val)%Qc
  then mat_div_scalar (mat_sub_scalar matrix min_val) (max_val - min_val)
  else Ok matrix.

(** What the script has computed when it reaches the pickling step. *)
Record Model : Type := mkModel {
  model_unique_preferences : list string;
  model_content_similarity : ndarray;
  model_category_match_matrix : ndarray;
  model_hybrid_similarity : ndarray
}.

(** Lines 53-56: every cell of the zero matrix is assigned once. *)
Definition build_category_match_matrix (Category : list pyval)
    (unique_preferences : list string) : result ndarray :=
  for_each (λ dest_Category,
              for_each (get_category_match_score dest_Category)
                       unique_preferences)
           Category.

(** The script from line 25 to line 72.  [Category0] is the [Category]
    column as read from the file; [cosine] is the value of
    [cosine_similarity(destination_features)], computed by scikit-learn. *)
Definition train (Category0 : list pyval) (cosine : ndarray) : result Model :=
  let Category := str_strip <$> Category0 in
  unique_preferences ← unique_preferences Category ;
  let content_similarity := cosine in
  category_match_matrix ←
    build_category_match_matrix Category unique_preferences ;
  content_similarity ← normalize_matrix content_similarity ;
  category_match_matrix ← normalize_matrix category_match_matrix ;
  hybrid_similarity ←
    mat_add (mat_scale (Q2Qc (6 # 10)) content_similarity)
            (mat_scale (Q2Qc (4 # 10))
               (dot category_match_matrix (transpose category_match_matrix))) ;
  hybrid_similarity ← normalize_matrix hybrid_similarity ;
  Ok {| model_unique_preferences := unique_preferences;
        model_content_similarity := content_similarity;
        model_category_match_matrix := category_match_matrix;
        model_hybrid_similarity := hybrid_similarity |}.

(** Line 75: [pd.Series(destinations.index, index=destinations['Name'])
    .to_dict()], the row number of every name; a later row with the same
    name replaces an earlier one.  [Name] is the column of names, which are
    strings in every run that reaches this line (line 39 concatenates them
    with [' ']). *)
Definition destination_indices (Name : list string) : gmap string nat :=
  foldl (λ d '(i, n), <[n := i]> d) ∅ (imap pair Name).

(** ** app.py: the routes *)

(** What a route hands to [jsonify], or the plain text of an error page. *)
Inductive body : Type :=
  | ErrorBody (error : string)
  | DestinationDetails (District State Category BestTimeToVisit : string)
  | UserDetails (Name Gender Location TravelPreferences : string)
                (NumberOfAdults NumberOfChildren : Z)
  | RecommendationsBody (recommendations : list Recommendation).

(** A response: the body and the status code (200 when the code gives
    none). *)
Definition response : Type := body * nat.

(** [not a] on a query-string argument: absent or empty. *)
Definition arg_missing (a : option string) : bool :=
  match a with
  | None => true
  | Some s => String.eqb s ""
  end.

(** What [request.get_json()] does with the request: it raises (no JSON
    content type, or a body that does not parse) and [str(e)] is
    [message]; or it returns null, an object, or another value (a list, a
    string, a number, a boolean) of the given Python type name and
    truthiness. *)
Inductive request_json : Type :=
  | JsonRaises (message : string)
  | JsonNull
  | JsonObject (data : gmap string pyval)
  | JsonOther (type_name : string) (is_truthy : bool).

(** [data.get(key)] on the decoded JSON object. *)
Definition dict_get (data : gmap string pyval) (key : string) : pyval :=
  default PyNone (data !! key).

(** A missing cell, as [isna] sees it. *)
Definition is_missing (cell : pyval) : bool :=
  match cell with
  | PyNaN | PyNone => true
  | _ => false
  end.

(** [Series.dropna()] *)
Definition dropna (column : list pyval) : list pyval :=
  filter (λ cell, is_missing cell = false) column.

Section Routes.
Variable destinations_df : list Destination.
Variable users_df : list User.

(** Lines 35-37 and the [preferences] argument of line 47: the labels
    offered on the home page.  A cell that is neither missing nor a string
    has no [split]; the route answers 500 then. *)
Definition home_preferences : result (list string) :=
  tokens ← for_each py_split (dropna (dest_Category <$> destinations_df)) ;
  let all_preferences := strip <$> concat tokens in
  Ok (sorted_set all_preferences).

(** Lines 55-76.  [name] is [request.args.get('name')]. *)
Definition get_destination_details (name : option string) : response :=
  try_except
    (if arg_missing name
     then Ok (ErrorBody "Destination name is required", 400)
     else
       let dest :=
         filter (λ d, series_eq (dest_Name d) (PyStr (default "" name)) = true)
                destinations_df in
       match dest with
       | [] => Ok (ErrorBody "Destination not found", 404)
       | dest_data :: _ =>
           Ok (DestinationDetails
                 (py_str (dest_District dest_data))
                 (py_str (dest_State dest_data))
                 (py_str (dest_Category dest_data))
                 (py_str (dest_BestTimeToVisit dest_data)),
               200)
       end)
    (ErrorBody "Failed to retrieve destination details", 500).

(** Lines 79-103.  [user_id] is [request.args.get('id')].  The values of
    the dict are built in order, so [int(...)] is applied to the adults
    cell and then to the children cell; when either raises, the handler of
    line 101 answers 500.  [astype(str)] is [py_str] on each UserID cell;
    what it makes of a missing cell depends on the pandas version, and the
    properties of this route are stated for UserID columns without one. *)
Definition get_user_details (user_id : option string) : response :=
  try_except
    (if arg_missing user_id
     then Ok (ErrorBody "User ID is required", 400)
     else
       let user :=
         filter (λ u, py_str (user_UserID u) = default "" user_id)
                users_df in
       match user with
       | [] => Ok (ErrorBody "User not found", 404)
       | user_data :: _ =>
           NumberOfAdults ← py_int (user_NumberOfAdults user_data) ;
           NumberOfChildren ← py_int (user_NumberOfChildren user_data) ;
           Ok (UserDetails
                 (py_str (user_Name user_data))
                 (py_str (user_Gender user_data))
                 (py_str (user_Location user_data))
                 (py_str (user_TravelPreferences user_data))
                 NumberOfAdults NumberOfChildren,
               200)
       end)
    (ErrorBody "Failed to retrieve user details", 500).

(** Lines 106-140.  [body] is what [request.get_json()] does.  When it
    raises, or when it returns a truthy value that is not an object (so
    that [data.get] raises AttributeError), the handler of line 138 answers
    500 with [str(e)].  The three functions the route calls catch their own
    exceptions. *)
Definition get_recommendations (body : request_json) : response :=
  match body with
  | JsonRaises message => (ErrorBody message, 500)
  | JsonNull => (ErrorBody "No data provided", 400)
  | JsonOther type_name is_truthy =>
      if is_truthy
      then (ErrorBody ("'" ++ type_name ++ "' object has no attribute 'get'"),
            500)
      else (ErrorBody "No data provided", 400)
  | JsonObject data =>
      if decide (data = ∅) then (ErrorBody "No data provided", 400)
      else
        let search_type := dict_get data "type" in
        if py_eq search_type (PyStr "destination") then
          let destination := dict_get data "destination" in
          if negb (truthy destination)
          then (ErrorBody "Destination is required", 400)
          else
            (RecommendationsBody
               (get_recommendations_by_destination destinations_df
                  destination),
             200)
        else if py_eq search_type (PyStr "user") then
          let user_id := dict_get data "userId" in
          if negb (truthy user_id)
          then (ErrorBody "User ID is required", 400)
          else
            (RecommendationsBody
               (get_recommendations_by_user destinations_df users_df user_id),
             200)
        else if py_eq search_type (PyStr "custom") then
          let preferences := dict_get data "preferences" in
          if negb (truthy preferences)
          then (ErrorBody "Preferences are required", 400)
          else
            let state := dict_get data "state" in
            (RecommendationsBody
               (get_custom_recommendations destinations_df preferences state),
             200)
        else (ErrorBody "Invalid search type", 400)
  end.

End Routes.

(** ** app.py: loading *)

(** Line 25: [dest_categories], the stripped labels of every row.  A cell
    that is not a string becomes NaN under [.str.split(',')] and the
    lambda cannot iterate over it; the handler of line 28 re-raises, so the
    module does not load ([None]). *)
Definition dest_categories (Category : list pyval)
    : option (list (list string)) :=
  mapM (λ cell,
          match cell with
          | PyStr s => Some (strip <$> split_comma s)
          | _ => None
          end)
       Category.

(** ** Specification-side definitions *)

(** The set of trimmed, lowercased tokens of a comma-separated field. *)
Definition token_set (s : string) : gset string :=
  list_to_set (lower <$> (strip <$> split_comma s)).

(** [|Q ∩ D| / |Q|] as a rational. *)
Definition overlap (Q D : gset string) : Qc :=
  (Qc_of_Z (Z.of_nat (size (Q ∩ D))) / Qc_of_Z (Z.of_nat (size Q)))%Qc.

(** [k1 ≤ k2] on pairs, first component first. *)
Definition lex_le (k1 k2 : Qc * Qc) : Prop :=
  (k1.1 < k2.1)%Qc ∨ (k1.1 = k2.1 ∧ (k1.2 ≤ k2.2)%Qc).

(** [r1] may stand before [r2] in a ranking that is non-increasing in
    [(MatchScore, PopularityScore)]. *)
Definition ranked_before (r1 r2 : Recommendation) : Prop :=
  lex_le (MatchScore r2, PopularityScore r2)
         (MatchScore r1, PopularityScore r1).

(** The candidates of the custom mode over a data frame: every row whose
    score is positive, in row order. *)
Definition scored_candidates (preferences : pyval) (df : list Destination)
    : list Recommendation :=
  omap (λ dest,
          let score :=
            calculate_similarity_score preferences (dest_Category dest) in
          if bool_decide (0 < score)%Qc
          then Some (recommendation_of dest score) else None)
       df.

(** [v] is the least (greatest) entry of [M]. *)
Definition is_min (M : ndarray) (v : Qc) : Prop :=
  v ∈ concat M ∧ ∀ x, x ∈ concat M → (v ≤ x)%Qc.
Definition is_max (M : ndarray) (v : Qc) : Prop :=
  v ∈ concat M ∧ ∀ x, x ∈ concat M → (x ≤ v)%Qc.

(** The row lengths of an array. *)
Definition shape (M : ndarray) : list nat := length <$> M.

(** [M] is the category indicator matrix of the [Category] fields [cs] over
    the vocabulary [vocabulary]: entry [(i, k)] is 1 when label [k],
    lowercased, is among the trimmed, lowercased tokens of field [i], and
    0 otherwise. *)
Definition is_category_indicator (cs vocabulary : list string) (M : ndarray)
    : Prop :=
  shape M = replicate (length cs) (length vocabulary)
  ∧ ∀ i k c p, cs !! i = Some c → vocabulary !! k = Some p →
      M !! i ≫= (.!! k)
      = Some (if decide (lower p ∈ token_set c) then 1%Qc else 0%Qc).

(** Min-max normalization as the specification gives it: unchanged when
    the greatest and least entries coincide, [(x - min) / (max - min)]
    otherwise; undefined on an array without entries. *)
Definition spec_normalize (M : ndarray) : option ndarray :=
  match mat_min M, mat_max M with
  | Ok mn, Ok mx =>
      Some (if decide (mx = mn) then M
            else mat_map (λ x, (x - mn) / (mx - mn))%Qc M)
  | _, _ => None
  end.

(** Entry-wise sum. *)
Definition mat_plus (a b : ndarray) : ndarray :=
  zip_with (zip_with Qcplus) a b.

(** [normalize (0.6 · C' + 0.4 · (M' · M'ᵗ))] with [C'] and [M'] the
    normalized content-similarity and category-indicator matrices. *)
Definition spec_HybridSimilarity (ContentSimilarity CategoryMatch : ndarray)
    : option ndarray :=
  C' ← spec_normalize ContentSimilarity ;
  M' ← spec_normalize CategoryMatch ;
  spec_normalize
    (mat_plus (mat_scale (Q2Qc (6 # 10)) C')
              (mat_scale (Q2Qc (4 # 10)) (dot M' (transpose M')))).

(** The vocabulary as the specification words it: the sorted set of the trimmed,
    lowercased tokens of every [Category] field. *)
Definition spec_CategoryVocabulary (categories : list string) : list string :=
  sorted_set (categories ≫= λ c, lower <$> (strip <$> split_comma c)).

(** Apply [f] to the last element of a list. *)
Fixpoint map_last {A} (f : A → A) (l : list A) : list A :=
  match l with
  | [] => []
  | [x] => [f x]
  | x :: l' => x :: map_last f l'
  end.

(** The ranking step shared by the three modes: score the rows [rows]
    against [query], keep the positive scores, sort, keep ten. *)
Definition ranking (query : pyval) (rows : list Destination)
    : list Recommendation :=
  take 10 (sort_reverse (scored_candidates query rows)).

(** Every entry of [M] lies between 0 and 1. *)
Definition in_unit_interval (M : ndarray) : Prop :=
  Forall (Forall (λ x, 0 ≤ x ∧ x ≤ 1)%Qc) M.

(** Every entry of [M] is 0 or 1. *)
Definition is_zero_one (M : ndarray) : Prop :=
  Forall (Forall (λ x, x = 0 ∨ x = 1)%Qc) M.

(** Entry [(i, j)] of an array, when it has one. *)
Definition entry (M : ndarray) (i j : nat) : option Qc := M !! i ≫= (.!! j).

(** [M] equals its transpose: entry [(i, j)] exists exactly when entry
    [(j, i)] does, and they are equal. *)
Definition is_symmetric (M : ndarray) : Prop :=
  ∀ i j, entry M i j = entry M j i.





(** ** Scenario data *)

(** The catalog of the specification's scenarios, and two users. *)
Definition scenario_destination (name category : string) (popularity : Qc)
    : Destination :=
  {| dest_Name := PyStr name; dest_District := PyStr "North";
     dest_State := PyStr "Goa"; dest_Category := PyStr category;
     dest_BestTimeToVisit := PyStr "Nov-Feb";
     dest_PopularityScore := popularity |}.

Definition scenario_catalog : list Destination :=
  [ scenario_destination "A" "Beach,Adventure" (Q2Qc (9 # 10));
    scenario_destination "B" "Beach,Culture" (Q2Qc (5 # 10));
    scenario_destination "C" "Culture" (Q2Qc (8 # 10)) ].

Definition scenario_users : list User :=
  [ mkUser (PyInt 1) (PyStr "Asha") (PyStr "F") (PyStr "Pune")
           (PyStr "Beach, Culture") (CountNumber 2) (CountNumber 0);
    mkUser (PyInt 2) (PyStr "Ravi") (PyStr "M") (PyStr "Delhi") PyNaN
           (CountNumber 1) CountBlank ].

(** A small run of the builder: two destinations and their cosine
    similarities. *)
Definition scenario_categories : list pyval :=
  [PyStr "Beach, Adventure"; PyStr "beach,Culture"].

Definition scenario_cosine : ndarray :=
  [[1; Q2Qc (1 # 4)]; [Q2Qc (1 # 4); 1]]%Qc.

Definition scenario_model : Model :=
  Eval vm_compute in
    match train scenario_categories scenario_cosine with
    | Ok model => model
    | Raise _ => mkModel [] [] [] []
    end.

(** * Properties of the scorer *)

Lemma split_comma_not_nil s : split_comma s ≠ [].
Proof.
  destruct s as [|c s]; simpl; [done|].
  destruct (Ascii.eqb c ","); [done|].
  by destruct (split_comma s).
Qed.

Lemma token_set_not_empty s : token_set s ≠ ∅.
Proof.
  unfold token_set.
  destruct (split_comma s) as [|t ts] eqn:E.
  - by destruct (split_comma_not_nil s).
  - simpl. set_solver.
Qed.

Lemma token_set_fmap s :
  list_to_set ((λ cat, lower (strip cat)) <$> split_comma s) = token_set s.
Proof. unfold token_set. by rewrite <-list_fmap_compose. Qed.

Lemma Qc_of_nat_ne_0 (n : nat) : n ≠ 0%nat → Qc_of_Z (Z.of_nat n) ≠ 0%Qc.
Proof.
  intros Hn E. rewrite <-Z2Qc_inj_0 in E. apply Z2Qc_inj in E. lia.
Qed.

(** On two strings the scorer takes neither the exception path nor the
    early return: every string has at least one token. *)
Lemma calculate_similarity_score_str q d :
  calculate_similarity_score (PyStr q) (PyStr d)
  = overlap (token_set q) (token_set d).
Proof.
  unfold calculate_similarity_score, py_split, mbind, result_bind.
  cbn beta iota. rewrite !token_set_fmap.
  destruct (decide (token_set q = ∅)) as [E|_].
  { by destruct (token_set_not_empty q). }
  unfold py_truediv.
  destruct (decide (size (token_set q) = 0%nat)) as [E|_]; [|done].
  apply size_empty_iff, leibniz_equiv in E.
  by destruct (token_set_not_empty q).
Qed.

(** A value without [split] sends the scorer to its handler. *)
Lemma calculate_similarity_score_not_str q d :
  (∀ s, q ≠ PyStr s) ∨ (∀ s, d ≠ PyStr s) →
  calculate_similarity_score q d = 0%Qc.
Proof.
  intros [H|H]; unfold calculate_similarity_score.
  - destruct q; try done. by destruct (H s).
  - destruct q; try done. destruct d; try done. by destruct (H s0).
Qed.

(** C1.  For a query string and a destination string whose
    comma-separated tokens are all non-empty after trimming,
    [calculate_similarity_score] returns [|Q ∩ D| / |Q|], where [Q] and [D]
    are the sets of trimmed, lowercased tokens of the two strings, and
    [|Q| > 0]. *)
Theorem C1_score_is_overlap (q d : string) :
  Forall (λ t, strip t ≠ "") (split_comma q) →
  Forall (λ t, strip t ≠ "") (split_comma d) →
  (0 < size (token_set q))%nat ∧
  calculate_similarity_score (PyStr q) (PyStr d)
  = (Qc_of_Z (Z.of_nat (size (token_set q ∩ token_set d)))
     / Qc_of_Z (Z.of_nat (size (token_set q))))%Qc.
Proof.
  intros _ _. split.
  - pose proof (token_set_not_empty q) as Hq.
    destruct (size (token_set q)) eqn:E; [|lia].
    apply size_empty_iff, leibniz_equiv in E. done.
  - apply calculate_similarity_score_str.
Qed.

Lemma C1_score_is_overlap_witness :
  (0 < size (token_set "Beach, Fort"))%nat ∧
  calculate_similarity_score (PyStr "Beach, Fort") (PyStr "beach,Culture")
  = (Qc_of_Z (Z.of_nat (size (token_set "Beach, Fort"
                                ∩ token_set "beach,Culture")))
     / Qc_of_Z (Z.of_nat (size (token_set "Beach, Fort"))))%Qc.
Proof.
  apply (C1_score_is_overlap "Beach, Fort" "beach,Culture").
  - repeat constructor; vm_compute; discriminate.
  - repeat constructor; vm_compute; discriminate.
Defined.

(** The empty query has the single token [""]: it scores 1 against a
    destination with a blank token and 0 against every other one. *)
Lemma empty_query_score d :
  calculate_similarity_score (PyStr "") (PyStr d)
  = if decide ("" ∈ token_set d) then 1%Qc else 0%Qc.
Proof.
  rewrite calculate_similarity_score_str. unfold overlap.
  assert (token_set "" = {[ "" ]}) as ->
    by (unfold token_set; simpl; set_solver).
  rewrite size_singleton.
  destruct (decide ("" ∈ token_set d)) as [Hin|Hnin].
  - assert ({[""]} ∩ token_set d = ({[""]} : gset string)) as ->
      by set_solver.
    rewrite size_singleton. by apply Qc_is_canon.
  - assert ({[""]} ∩ token_set d = (∅ : gset string)) as -> by set_solver.
    rewrite size_empty. by apply Qc_is_canon.
Qed.

(** C2.  The empty query does not score 0 against every destination: its
    single token is the empty string, the guard on an empty query set is
    never taken, and a destination with a blank token (a trailing comma)
    scores 1. *)
Theorem C2_empty_query_scores_one :
  calculate_similarity_score (PyStr "") (PyStr "Beach,") = 1%Qc
  ∧ calculate_similarity_score (PyStr "") (PyStr "Beach,") ≠ 0%Qc.
Proof.
  assert (calculate_similarity_score (PyStr "") (PyStr "Beach,") = 1%Qc)
    as E by (apply Qc_is_canon; vm_compute; reflexivity).
  split; [done|]. rewrite E. done.
Qed.

(** C9.  A category string whose token set is not empty has score 1
    against itself. *)
Theorem C9_self_similarity (c : string) :
  token_set c ≠ ∅ →
  calculate_similarity_score (PyStr c) (PyStr c) = 1%Qc.
Proof.
  intros Hne. rewrite calculate_similarity_score_str. unfold overlap.
  assert (token_set c ∩ token_set c = token_set c) as -> by set_solver.
  apply Qcmult_inv_r, Qc_of_nat_ne_0.
  by intros E%size_empty_iff%leibniz_equiv.
Qed.

Lemma C9_self_similarity_witness :
  calculate_similarity_score (PyStr "Beach,Adventure")
                             (PyStr "Beach,Adventure") = 1%Qc.
Proof.
  apply (C9_self_similarity "Beach,Adventure").
  intros E. apply (f_equal size) in E. vm_compute in E. discriminate.
Defined.

(** * Properties of the ranking step *)

Lemma key_lt_false k1 k2 : key_lt k1 k2 = false → lex_le k2 k1.
Proof.
  unfold key_lt, lex_le. destruct (decide (k1.1 = k2.1)) as [E|NE].
  - intros H%bool_decide_eq_false. right. split; [done|].
    by apply Qcnot_lt_le.
  - intros H%bool_decide_eq_false. left.
    apply Qcnot_lt_le in H. apply Qcle_lt_or_eq in H as [H|H]; [done|].
    by destruct NE.
Qed.

Lemma key_lt_true k1 k2 : key_lt k1 k2 = true → lex_le k1 k2.
Proof.
  unfold key_lt, lex_le. destruct (decide (k1.1 = k2.1)) as [E|NE].
  - intros H%bool_decide_eq_true. right. split; [done|].
    by apply Qclt_le_weak.
  - intros H%bool_decide_eq_true. by left.
Qed.

Lemma lex_le_trans k1 k2 k3 : lex_le k1 k2 → lex_le k2 k3 → lex_le k1 k3.
Proof.
  unfold lex_le. intros [H1|[E1 H1]] [H2|[E2 H2]].
  - left. by eapply Qclt_trans.
  - left. by rewrite <-E2.
  - left. by rewrite E1.
  - right. split; [congruence|]. by eapply Qcle_trans.
Qed.

Global Instance ranked_before_trans : Transitive ranked_before.
Proof. intros r1 r2 r3 H12 H23. unfold ranked_before in *. by eapply lex_le_trans. Qed.

Lemma elem_of_insert_reverse x y l :
  y ∈ insert_reverse x l ↔ y = x ∨ y ∈ l.
Proof.
  induction l as [|z l IH]; simpl.
  - set_solver.
  - destruct (key_lt (sort_key x) (sort_key z)); set_solver.
Qed.

Lemma insert_reverse_sorted x l :
  StronglySorted ranked_before l →
  StronglySorted ranked_before (insert_reverse x l).
Proof.
  induction l as [|z l IH]; simpl; intros Hl.
  - repeat constructor.
  - apply StronglySorted_cons in Hl as [Hz Hl].
    destruct (key_lt (sort_key x) (sort_key z)) eqn:E.
    + apply StronglySorted_cons. split; [|by apply IH].
      apply Forall_forall. intros y [->|Hy]%elem_of_insert_reverse.
      * by apply key_lt_true in E.
      * by eapply Forall_forall in Hz.
    + apply key_lt_false in E.
      apply StronglySorted_cons. split.
      * constructor; [done|].
        eapply Forall_impl; [exact Hz|]. intros y Hy. by etrans.
      * by apply StronglySorted_cons.
Qed.

Lemma sort_reverse_sorted l : StronglySorted ranked_before (sort_reverse l).
Proof.
  induction l as [|x l IH]; simpl; [constructor|].
  by apply insert_reverse_sorted.
Qed.

Lemma insert_reverse_Permutation x l : insert_reverse x l ≡ₚ x :: l.
Proof.
  induction l as [|z l IH]; simpl; [done|].
  destruct (key_lt (sort_key x) (sort_key z)); [|done].
  rewrite IH. apply Permutation_swap.
Qed.

Lemma sort_reverse_Permutation l : sort_reverse l ≡ₚ l.
Proof.
  induction l as [|x l IH]; simpl; [done|].
  by rewrite insert_reverse_Permutation, IH.
Qed.

Lemma StronglySorted_take {A} (R : relation A) n l :
  StronglySorted R l → StronglySorted R (take n l).
Proof.
  intros H. rewrite <-(take_drop n l) in H.
  by apply StronglySorted_app_1_l in H.
Qed.

Lemma top10_sorted l :
  StronglySorted ranked_before (take 10 (sort_reverse l)).
Proof. apply StronglySorted_take, sort_reverse_sorted. Qed.

Lemma top10_length l : (length (take 10 (sort_reverse l)) ≤ 10)%nat.
Proof. rewrite length_take. lia. Qed.

(** Over catalogs whose popularity scores are all numbers, which is what
    the type of [dest_PopularityScore] says, each of the three query modes
    returns a list sorted non-increasing by the pair
    [(MatchScore, PopularityScore)], compared lexicographically.  A blank
    PopularityScore cell is not covered: its NaN compares false with every
    number and [list.sort] then leaves the popularity scores of a tie out
    of order. *)
Theorem recommendations_sorted_when_popularity_is_a_number
    (destinations_df : list Destination) (users_df : list User)
    (destination_name user_id preferences state : pyval) :
  StronglySorted ranked_before
    (get_recommendations_by_destination destinations_df destination_name)
  ∧ StronglySorted ranked_before
      (get_recommendations_by_user destinations_df users_df user_id)
  ∧ StronglySorted ranked_before
      (get_custom_recommendations destinations_df preferences state).
Proof.
  split; [|split].
  - unfold get_recommendations_by_destination.
    destruct (filter _ destinations_df); [constructor|apply top10_sorted].
  - unfold get_recommendations_by_user.
    destruct (filter _ users_df); [constructor|apply top10_sorted].
  - unfold get_custom_recommendations, try_except. apply top10_sorted.
Qed.

(** C4.  In each of the three query modes the returned list has at most
    10 entries. *)
Theorem C4_at_most_ten
    (destinations_df : list Destination) (users_df : list User)
    (destination_name user_id preferences state : pyval) :
  (length (get_recommendations_by_destination destinations_df
             destination_name) ≤ 10)%nat
  ∧ (length (get_recommendations_by_user destinations_df users_df
               user_id) ≤ 10)%nat
  ∧ (length (get_custom_recommendations destinations_df preferences
               state) ≤ 10)%nat.
Proof.
  split; [|split].
  - unfold get_recommendations_by_destination.
    destruct (filter _ destinations_df); [simpl; lia|apply top10_length].
  - unfold get_recommendations_by_user.
    destruct (filter _ users_df); [simpl; lia|apply top10_length].
  - unfold get_custom_recommendations, try_except. apply top10_length.
Qed.

Lemma filter_Forall_not_nil {A} (P : A → Prop) `{!∀ x, Decision (P x)} l :
  Forall (λ x, ¬ P x) l → filter P l = [].
Proof.
  induction 1 as [|x l Hx _ IH]; [done|].
  by rewrite filter_cons_False.
Qed.

(** C5.  A destination name that matches no row of the catalog, and a user
    id whose string form matches the string form of no user id, both give
    the empty list. *)
Theorem C5_unresolved_gives_empty
    (destinations_df : list Destination) (users_df : list User)
    (destination_name user_id : pyval) :
  (Forall (λ d, series_eq (dest_Name d) destination_name = false)
          destinations_df →
   get_recommendations_by_destination destinations_df destination_name = [])
  ∧ (Forall (λ u, py_str (user_UserID u) ≠ py_str user_id) users_df →
     get_recommendations_by_user destinations_df users_df user_id = []).
Proof.
  split; intros H.
  - unfold get_recommendations_by_destination.
    rewrite filter_Forall_not_nil; [done|].
    eapply Forall_impl; [exact H|]. intros d Hd. by rewrite Hd.
  - unfold get_recommendations_by_user.
    by rewrite filter_Forall_not_nil.
Qed.

Lemma C5_unresolved_gives_empty_witness :
  get_recommendations_by_destination scenario_catalog (PyStr "Nowhere") = []
  ∧ get_recommendations_by_user scenario_catalog scenario_users
      (PyStr "42") = [].
Proof.
  pose proof (C5_unresolved_gives_empty scenario_catalog scenario_users
                (PyStr "Nowhere") (PyStr "42")) as [H1 H2].
  split.
  - apply H1. repeat constructor.
  - apply H2. repeat constructor; vm_compute; discriminate.
Defined.

Lemma custom_loop_scored_candidates preferences df acc :
  foldl (λ recommendations dest,
           let score :=
             calculate_similarity_score preferences (dest_Category dest) in
           if bool_decide (0 < score)%Qc
           then recommendations ++ [recommendation_of dest score]
           else recommendations)
        acc df
  = acc ++ scored_candidates preferences df.
Proof.
  revert acc. induction df as [|dest df IH]; intros acc; simpl.
  - by rewrite app_nil_r.
  - rewrite IH. unfold scored_candidates. simpl.
    destruct (bool_decide _); simpl; [|done].
    by rewrite <-app_assoc.
Qed.

Lemma get_custom_recommendations_falsy destinations_df preferences state :
  truthy state = false →
  get_custom_recommendations destinations_df preferences state
  = take 10 (sort_reverse (scored_candidates preferences destinations_df)).
Proof.
  intros H. unfold get_custom_recommendations, try_except. rewrite H.
  by rewrite custom_loop_scored_candidates.
Qed.

(** C10.  With the empty string or [None] as [state] the custom mode
    applies no region filter: both calls return the ranking of the
    positively scored rows of the whole catalog, which is also what the
    call without a [state] argument (default [None]) returns. *)
Theorem C10_falsy_state_disables_filter
    (destinations_df : list Destination) (preferences : pyval) :
  get_custom_recommendations destinations_df preferences (PyStr "")
  = take 10 (sort_reverse (scored_candidates preferences destinations_df))
  ∧ get_custom_recommendations destinations_df preferences PyNone
    = take 10 (sort_reverse (scored_candidates preferences destinations_df))
  ∧ get_custom_recommendations destinations_df preferences (PyStr "")
    = get_custom_recommendations destinations_df preferences PyNone.
Proof.
  rewrite !get_custom_recommendations_falsy by done. done.
Qed.

(** ** The scenarios of the specification, run on the model *)

Example scenario_by_destination :
  (λ r, (Name r, this (MatchScore r)))
    <$> get_recommendations_by_destination scenario_catalog (PyStr "A")
  = [("B", 1 # 2)].
Proof. vm_compute. reflexivity. Qed.

Example scenario_custom :
  (λ r, (Name r, this (MatchScore r), this (PopularityScore r)))
    <$> get_custom_recommendations scenario_catalog (PyStr "beach") PyNone
  = [("A", 1 # 1, 9 # 10); ("B", 1 # 1, 1 # 2)].
Proof. vm_compute. reflexivity. Qed.

Example scenario_by_user :
  (λ r, (Name r, this (MatchScore r), this (PopularityScore r)))
    <$> get_recommendations_by_user scenario_catalog scenario_users (PyStr "1")
  = [("B", 1 # 1, 1 # 2); ("A", 1 # 2, 9 # 10); ("C", 1 # 2, 4 # 5)].
Proof. vm_compute. reflexivity. Qed.

Example scenario_asymmetry :
  this (calculate_similarity_score (PyStr "beach") (PyStr "beach,culture"))
  = 1 # 1
  ∧ this (calculate_similarity_score (PyStr "beach,culture") (PyStr "beach"))
    = 1 # 2.
Proof. split; vm_compute; reflexivity. Qed.

(** * Properties of the builder: normalization *)

Lemma foldl_Qc_min_spec x xs :
  foldl Qc_min x xs ∈ x :: xs ∧ ∀ y, y ∈ x :: xs → (foldl Qc_min x xs ≤ y)%Qc.
Proof.
  revert x. induction xs as [|z xs IH]; intros x; simpl.
  - split; [set_solver|]. intros y ->%list_elem_of_singleton. apply Qcle_refl.
  - destruct (IH (Qc_min x z)) as [Hin Hle]. unfold Qc_min in *.
    destruct (decide (x ≤ z)%Qc) as [Hxz|Hxz].
    + split.
      * apply elem_of_cons in Hin as [->|Hin]; set_solver.
      * intros y [->|[->|Hy]%elem_of_cons]%elem_of_cons.
        -- apply Hle. set_solver.
        -- trans x; [apply Hle; set_solver|done].
        -- apply Hle. set_solver.
    + apply Qcnot_le_lt, Qclt_le_weak in Hxz. split.
      * apply elem_of_cons in Hin as [->|Hin]; set_solver.
      * intros y [->|[->|Hy]%elem_of_cons]%elem_of_cons.
        -- trans z; [apply Hle; set_solver|done].
        -- apply Hle. set_solver.
        -- apply Hle. set_solver.
Qed.

Lemma foldl_Qc_max_spec x xs :
  foldl Qc_max x xs ∈ x :: xs ∧ ∀ y, y ∈ x :: xs → (y ≤ foldl Qc_max x xs)%Qc.
Proof.
  revert x. induction xs as [|z xs IH]; intros x; simpl.
  - split; [set_solver|]. intros y ->%list_elem_of_singleton. apply Qcle_refl.
  - destruct (IH (Qc_max x z)) as [Hin Hle]. unfold Qc_max in *.
    destruct (decide (x ≤ z)%Qc) as [Hxz|Hxz].
    + split.
      * apply elem_of_cons in Hin as [->|Hin]; set_solver.
      * intros y [->|[->|Hy]%elem_of_cons]%elem_of_cons.
        -- trans z; [done|apply Hle; set_solver].
        -- apply Hle. set_solver.
        -- apply Hle. set_solver.
    + apply Qcnot_le_lt, Qclt_le_weak in Hxz. split.
      * apply elem_of_cons in Hin as [->|Hin]; set_solver.
      * intros y [->|[->|Hy]%elem_of_cons]%elem_of_cons.
        -- apply Hle. set_solver.
        -- trans x; [done|apply Hle; set_solver].
        -- apply Hle. set_solver.
Qed.

Lemma mat_min_Ok M v : mat_min M = Ok v ↔ is_min M v.
Proof.
  unfold mat_min, is_min. destruct (concat M) as [|x xs].
  - split; [done|]. intros [[]%elem_of_nil _].
  - pose proof (foldl_Qc_min_spec x xs) as [Hin Hle]. split.
    + by intros [= <-].
    + intros [Hv Hvle]. f_equal. apply Qcle_antisym; auto.
Qed.

Lemma mat_max_Ok M v : mat_max M = Ok v ↔ is_max M v.
Proof.
  unfold mat_max, is_max. destruct (concat M) as [|x xs].
  - split; [done|]. intros [[]%elem_of_nil _].
  - pose proof (foldl_Qc_max_spec x xs) as [Hin Hle]. split.
    + by intros [= <-].
    + intros [Hv Hvle]. f_equal. apply Qcle_antisym; auto.
Qed.

Lemma mat_min_max_total M :
  concat M ≠ [] → ∃ mn mx, is_min M mn ∧ is_max M mx.
Proof.
  intros Hne. destruct (concat M) as [|x xs] eqn:E; [done|].
  exists (foldl Qc_min x xs), (foldl Qc_max x xs). split.
  - apply mat_min_Ok. unfold mat_min. by rewrite E.
  - apply mat_max_Ok. unfold mat_max. by rewrite E.
Qed.

Lemma is_min_le_is_max M mn mx : is_min M mn → is_max M mx → (mn ≤ mx)%Qc.
Proof. intros [Hin _] [_ Hle]. by apply Hle. Qed.

Lemma Qc_range_pos mn mx :
  (mn ≤ mx)%Qc → (0 < mx - mn)%Qc ↔ mx ≠ mn.
Proof.
  intros Hle. unfold Qcminus. rewrite <-Qclt_minus_iff. split.
  - intros Hlt ->. by apply Qclt_not_eq in Hlt.
  - intros Hne. apply Qcle_lt_or_eq in Hle as [|]; [done|]. by subst.
Qed.

Lemma Qc_range_ne_0 mn mx : mx ≠ mn → (mx - mn)%Qc ≠ 0%Qc.
Proof.
  intros Hne E. apply Hne.
  rewrite <-(Qcplus_0_l mn), <-E. unfold Qcminus.
  by rewrite <-Qcplus_assoc, (Qcplus_comm (- mn)), Qcplus_opp_r, Qcplus_0_r.
Qed.

Lemma mat_map_compose f g M : mat_map g (mat_map f M) = mat_map (g ∘ f) M.
Proof.
  unfold mat_map. rewrite map_map. apply map_ext. intros row.
  by rewrite map_map.
Qed.

Lemma normalize_matrix_eq M mn mx :
  is_min M mn → is_max M mx →
  normalize_matrix M
  = Ok (if decide (mx = mn) then M
        else mat_map (λ x, (x - mn) / (mx - mn))%Qc M).
Proof.
  intros Hmin Hmax. unfold normalize_matrix.
  pose proof (is_min_le_is_max _ _ _ Hmin Hmax) as Hle.
  apply mat_min_Ok in Hmin as ->. apply mat_max_Ok in Hmax as ->.
  unfold mbind, result_bind.
  destruct (decide (mx = mn)) as [->|Hne].
  - rewrite bool_decide_eq_false_2; [done|].
    rewrite Qc_range_pos by done. tauto.
  - rewrite bool_decide_eq_true_2 by (by apply Qc_range_pos).
    unfold mat_div_scalar, mat_sub_scalar.
    destruct (decide _) as [E|_]; [by apply Qc_range_ne_0 in E|].
    by rewrite mat_map_compose.
Qed.

(** C8.  When the greatest entry of [M] equals its least entry,
    [normalize_matrix] returns [M]; otherwise the divisor [max - min] is
    not zero and the result is [(x - min) / (max - min)] at every entry. *)
Theorem C8_normalize_matrix (M : ndarray) (mn mx : Qc) :
  is_min M mn → is_max M mx →
  (mx = mn → normalize_matrix M = Ok M)
  ∧ (mx ≠ mn →
     (mx - mn)%Qc ≠ 0%Qc
     ∧ normalize_matrix M
       = Ok (map (map (λ x, (x - mn) / (mx - mn))%Qc) M)).
Proof.
  intros Hmin Hmax. rewrite (normalize_matrix_eq M mn mx) by done.
  split; intros H.
  - by rewrite decide_True.
  - split; [by apply Qc_range_ne_0|]. by rewrite decide_False.
Qed.

Lemma C8_normalize_matrix_witness :
  (2 - 0)%Qc ≠ 0%Qc
  ∧ normalize_matrix [[0; 2]; [1; 2]]%Qc
    = Ok (map (map (λ x, (x - 0) / (2 - 0))%Qc) [[0; 2]; [1; 2]]%Qc).
Proof.
  assert (is_min [[0; 2]; [1; 2]]%Qc 0%Qc) as Hmin
    by (apply mat_min_Ok; reflexivity).
  assert (is_max [[0; 2]; [1; 2]]%Qc 2%Qc) as Hmax
    by (apply mat_max_Ok; reflexivity).
  apply (C8_normalize_matrix [[0; 2]; [1; 2]]%Qc 0%Qc 2%Qc Hmin Hmax).
  discriminate.
Defined.

Example normalize_matrix_all_equal :
  normalize_matrix [[1; 1]; [1; 1]]%Qc = Ok [[1; 1]; [1; 1]]%Qc.
Proof. reflexivity. Qed.

Example normalize_matrix_no_entries :
  normalize_matrix [] = Raise ValueError.
Proof. reflexivity. Qed.

(** * Properties of the builder: the vocabulary *)

Lemma is_space_not_comma a : is_space a = true → Ascii.eqb a "," = false.
Proof. destruct a as [[] [] [] [] [] [] [] []]; by vm_compute. Qed.

Lemma lstrip_idemp s : lstrip (lstrip s) = lstrip s.
Proof.
  induction s as [|a s IH]; simpl; [done|].
  destruct (is_space a) eqn:E; [done|]. simpl. by rewrite E.
Qed.

Lemma rstrip_idemp s : rstrip (rstrip s) = rstrip s.
Proof.
  induction s as [|a s IH]; simpl; [done|].
  destruct (rstrip s) as [|b r] eqn:Er.
  - destruct (is_space a) eqn:E; simpl; [done|]. by rewrite E.
  - simpl in *. by rewrite IH.
Qed.

Lemma lstrip_rstrip s : lstrip (rstrip s) = rstrip (lstrip s).
Proof.
  induction s as [|a s IH]; simpl; [done|].
  destruct (is_space a) eqn:E.
  - rewrite <-IH. destruct (rstrip s) as [|b r]; simpl; [done|].
    by rewrite E.
  - destruct (rstrip s) as [|b r] eqn:Er; simpl; by rewrite ?Er, ?E.
Qed.

Lemma strip_lstrip s : strip (lstrip s) = strip s.
Proof. unfold strip. by rewrite lstrip_idemp. Qed.

Lemma strip_rstrip s : strip (rstrip s) = strip s.
Proof. unfold strip. by rewrite lstrip_rstrip, rstrip_idemp. Qed.

Lemma split_comma_lstrip s :
  split_comma (lstrip s)
  = match split_comma s with
    | t :: ts => lstrip t :: ts
    | [] => []
    end.
Proof.
  induction s as [|a s IH]; [reflexivity|].
  pose proof (split_comma_not_nil s) as Hne.
  cbn [lstrip]. destruct (is_space a) eqn:E.
  - rewrite IH. cbn [split_comma]. rewrite (is_space_not_comma a E).
    destruct (split_comma s) as [|t ts]; [done|].
    cbn [lstrip]. by rewrite E.
  - cbn [split_comma]. destruct (Ascii.eqb a ","); [done|].
    destruct (split_comma s) as [|t ts]; cbn [lstrip]; by rewrite E.
Qed.

Lemma split_comma_singleton_empty s : split_comma s = [""] → s = "".
Proof.
  destruct s as [|a s]; [done|]. simpl.
  destruct (Ascii.eqb a ","); [|by destruct (split_comma s)].
  intros [= H]. by destruct (split_comma_not_nil s).
Qed.

Lemma split_comma_rstrip s :
  split_comma (rstrip s) = map_last rstrip (split_comma s).
Proof.
  assert (∀ a s, Ascii.eqb a "," = false →
            split_comma (String a s)
            = match split_comma s with
              | t :: ts => String a t :: ts
              | [] => [String a ""]
              end) as Hstep.
  { intros a s' Ha. simpl. by rewrite Ha. }
  induction s as [|a s IH]; [done|].
  cbn [rstrip split_comma].
  destruct (Ascii.eqb a ",") eqn:Ea.
  - assert (is_space a = false) as Hsp.
    { destruct (is_space a) eqn:E; [|done].
      apply is_space_not_comma in E. congruence. }
    rewrite Hsp.
    assert (map_last rstrip ("" :: split_comma s)
            = "" :: map_last rstrip (split_comma s)) as ->.
    { pose proof (split_comma_not_nil s).
      by destruct (split_comma s). }
    rewrite <-IH.
    destruct (rstrip s) as [|b r]; cbn [split_comma]; by rewrite Ea.
  - destruct (split_comma s) as [|t ts] eqn:Es.
    { by destruct (split_comma_not_nil s). }
    destruct (rstrip s) as [|b r] eqn:Er.
    + destruct ts as [|t2 ts2]; [|by destruct ts2].
      injection IH as IH. cbn [map_last rstrip]. rewrite <-IH.
      destruct (is_space a); [done|]. cbn [split_comma]. by rewrite Ea.
    + rewrite (Hstep a _ Ea), IH.
      destruct ts as [|t2 ts2]; [|done].
      cbn [map_last rstrip]. cbn [map_last] in IH.
      destruct (rstrip t) eqn:Et; [|done].
      apply split_comma_singleton_empty in IH. discriminate.
Qed.

Lemma fmap_strip_map_last_rstrip l :
  strip <$> map_last rstrip l = strip <$> l.
Proof.
  induction l as [|x [|y l] IH]; [done| |].
  - simpl. by rewrite strip_rstrip.
  - change (map_last rstrip (x :: y :: l)) with (x :: map_last rstrip (y :: l)).
    rewrite !fmap_cons in *. by rewrite IH.
Qed.

(** Trimming the whole field before splitting does not change the trimmed
    tokens. *)
Lemma fmap_strip_split_comma_strip c :
  strip <$> split_comma (strip c) = strip <$> split_comma c.
Proof.
  unfold strip at 2. rewrite split_comma_rstrip, fmap_strip_map_last_rstrip.
  rewrite split_comma_lstrip.
  destruct (split_comma c) as [|t ts]; [done|].
  by rewrite !fmap_cons, strip_lstrip.
Qed.

Lemma str_strip_fmap_PyStr (cs : list string) :
  str_strip <$> (PyStr <$> cs) = PyStr <$> (strip <$> cs).
Proof. by rewrite <-!list_fmap_compose. Qed.

Lemma str_split_explode_PyStr (l : list string) :
  str_split_explode (PyStr <$> l) = PyStr <$> (l ≫= split_comma).
Proof.
  unfold str_split_explode. induction l as [|s l IH]; [done|].
  rewrite fmap_cons, !bind_cons, fmap_app. by rewrite IH.
Qed.

Lemma unique_go_PyStr seen (l : list string) :
  ∃ l', unique_go seen (PyStr <$> l) = PyStr <$> l'
        ∧ ∀ s, s ∈ l' ↔ s ∈ l ∧ PyStr s ∉ seen.
Proof.
  revert seen. induction l as [|x l IH]; intros seen.
  - exists []. split; [done|]. set_solver.
  - rewrite fmap_cons. cbn [unique_go].
    destruct (decide (PyStr x ∈ seen)) as [Hin|Hnin].
    + destruct (IH seen) as (l' & -> & Hl'). exists l'. split; [done|].
      intros s. rewrite Hl'. set_solver.
    + destruct (IH (PyStr x :: seen)) as (l' & -> & Hl').
      exists (x :: l'). split; [done|].
      intros s. rewrite elem_of_cons, Hl'.
      destruct (decide (s = x)) as [->|Hne]; set_solver.
Qed.

Lemma for_each_py_strip_PyStr (l : list string) :
  for_each py_strip (PyStr <$> l) = Ok (strip <$> l).
Proof.
  induction l as [|s l IH]; [done|].
  rewrite !fmap_cons. cbn [for_each]. rewrite IH. done.
Qed.

Lemma elem_of_sorted_set x l : x ∈ sorted_set l ↔ x ∈ l.
Proof.
  unfold sorted_set. rewrite merge_sort_Permutation.
  by rewrite elem_of_elements, elem_of_list_to_set.
Qed.

Lemma sorted_set_sorted l : StronglySorted String.le (sorted_set l).
Proof. apply (StronglySorted_merge_sort String.le). Qed.

Lemma sorted_set_NoDup l : NoDup (sorted_set l).
Proof.
  unfold sorted_set. rewrite merge_sort_Permutation. apply NoDup_elements.
Qed.

(** The vocabulary of a catalog whose [Category] cells are all strings. *)
Lemma unique_preferences_PyStr (cs : list string) :
  ∃ v, unique_preferences (str_strip <$> (PyStr <$> cs)) = Ok v
       ∧ ∀ x, x ∈ v ↔ ∃ c t, c ∈ cs ∧ t ∈ split_comma c ∧ x = strip t.
Proof.
  unfold unique_preferences, unique.
  rewrite str_strip_fmap_PyStr, str_split_explode_PyStr.
  destruct (unique_go_PyStr [] ((strip <$> cs) ≫= split_comma))
    as (l' & -> & Hl').
  rewrite for_each_py_strip_PyStr. eexists. split; [done|].
  intros x. rewrite elem_of_sorted_set, list_elem_of_fmap. split.
  - intros (t & -> & Ht). apply Hl' in Ht as [Ht _].
    apply list_elem_of_bind in Ht as (c' & Ht & Hc').
    apply list_elem_of_fmap in Hc' as (c & -> & Hc).
    assert (strip t ∈ strip <$> split_comma (strip c)) as Hin
      by (apply list_elem_of_fmap; eauto).
    rewrite fmap_strip_split_comma_strip in Hin.
    apply list_elem_of_fmap in Hin as (t' & Heq & Ht').
    by exists c, t'.
  - intros (c & t & Hc & Ht & ->).
    assert (strip t ∈ strip <$> split_comma (strip c)) as Hin.
    { rewrite fmap_strip_split_comma_strip. apply list_elem_of_fmap. eauto. }
    apply list_elem_of_fmap in Hin as (t' & Heq & Ht').
    exists t'. split; [done|]. apply Hl'. split; [|set_solver].
    apply list_elem_of_bind. exists (strip c). split; [done|].
    apply list_elem_of_fmap. eauto.
Qed.

(** The vocabulary a finished run of the script has computed. *)
Lemma train_unique_preferences Category0 cosine model :
  train Category0 cosine = Ok model →
  unique_preferences (str_strip <$> Category0)
  = Ok (model_unique_preferences model).
Proof.
  unfold train. intros H.
  repeat match type of H with
         | (?m ≫= _) = Ok _ =>
             destruct m; cbn [mbind result_bind] in H; [|done]
         end.
  by injection H as <-.
Qed.

(** C7 (as the code has it).  For a catalog whose [Category] cells are
    strings, the builder's vocabulary is the sorted, duplicate-free list of
    the whitespace-trimmed tokens of the [Category] fields split on
    commas; the tokens keep their case.  Every finished run of the script
    holds this list. *)
Theorem C7_vocabulary_keeps_case (cs : list string) :
  ∃ v, unique_preferences (str_strip <$> (PyStr <$> cs)) = Ok v
       ∧ StronglySorted String.le v
       ∧ NoDup v
       ∧ (∀ x, x ∈ v ↔ ∃ c t, c ∈ cs ∧ t ∈ split_comma c ∧ x = strip t)
       ∧ ∀ cosine model, train (PyStr <$> cs) cosine = Ok model →
                         model_unique_preferences model = v.
Proof.
  destruct (unique_preferences_PyStr cs) as (v & Hv & Hmem).
  exists v. split; [done|].
  assert (∀ cosine model, train (PyStr <$> cs) cosine = Ok model →
                          model_unique_preferences model = v) as Htrain.
  { intros cosine model H%train_unique_preferences.
    rewrite Hv in H. by injection H. }
  unfold unique_preferences in Hv.
  destruct (for_each _ _) as [prefs|]; [|done].
  injection Hv as <-.
  split; [apply sorted_set_sorted|]. split; [apply sorted_set_NoDup|done].
Qed.

Lemma C7_vocabulary_keeps_case_witness :
  ∃ v, unique_preferences
         (str_strip <$> (PyStr <$> ["Beach, Fort "; " beach,Fort"])) = Ok v
       ∧ StronglySorted String.le v
       ∧ NoDup v
       ∧ (∀ x, x ∈ v ↔ ∃ c t, c ∈ ["Beach, Fort "; " beach,Fort"]
                               ∧ t ∈ split_comma c ∧ x = strip t)
       ∧ ∀ cosine model,
           train (PyStr <$> ["Beach, Fort "; " beach,Fort"]) cosine = Ok model →
           model_unique_preferences model = v.
Proof. exact (C7_vocabulary_keeps_case ["Beach, Fort "; " beach,Fort"]). Defined.

(** C7, refuted as stated: on the one-row catalog with [Category]
    ["Beach"] the builder's vocabulary is [["Beach"]], while the sorted set
    of lowercased labels is [["beach"]]. *)
Lemma C7_vocabulary_not_lowercased :
  unique_preferences (str_strip <$> [PyStr "Beach"]) = Ok ["Beach"]
  ∧ spec_CategoryVocabulary ["Beach"] = ["beach"]
  ∧ unique_preferences (str_strip <$> [PyStr "Beach"])
    ≠ Ok (spec_CategoryVocabulary ["Beach"]).
Proof.
  assert (unique_preferences (str_strip <$> [PyStr "Beach"]) = Ok ["Beach"])
    as E1 by (vm_compute; reflexivity).
  assert (spec_CategoryVocabulary ["Beach"] = ["beach"])
    as E2 by (vm_compute; reflexivity).
  split; [done|]. split; [done|]. rewrite E1, E2. discriminate.
Qed.

(** * Properties of the builder: the hybrid matrix *)

Lemma shape_mat_map f M : shape (mat_map f M) = shape M.
Proof.
  unfold shape, mat_map. induction M as [|row M IH]; [done|].
  simpl. rewrite length_map. f_equal. exact IH.
Qed.

Lemma shape_concat_not_nil M n m :
  shape M = replicate (S n) (S m) → concat M ≠ [].
Proof.
  destruct M as [|[|x row] M]; [done|done|]. done.
Qed.

Lemma shape_mat_plus a b : shape a = shape b → shape (mat_plus a b) = shape a.
Proof.
  unfold shape, mat_plus. revert b.
  induction a as [|ra a IH]; intros [|rb b] H; try done.
  injection H as Hr H. rewrite !fmap_cons. cbn [zip_with].
  rewrite fmap_cons, (IH b H). f_equal.
  rewrite length_zip_with. lia.
Qed.

Lemma shape_const {A} (f : A → list Qc) (l : list A) k :
  (∀ x, length (f x) = k) → length <$> map f l = replicate (length l) k.
Proof.
  intros Hf. induction l as [|x l IH]; [done|].
  cbn [map length replicate]. by rewrite fmap_cons, Hf, IH.
Qed.

Lemma ncols_replicate M n m : shape M = replicate (S n) m → ncols M = m.
Proof.
  destruct M as [|row M]; [done|].
  unfold shape. rewrite fmap_cons. cbn [replicate ncols]. by intros [= <- _].
Qed.

Lemma ncols_transpose M : (0 < ncols M)%nat → ncols (transpose M) = length M.
Proof.
  unfold transpose. destruct (ncols M) as [|p]; [lia|]. intros _.
  simpl. by rewrite length_map.
Qed.

Lemma shape_dot_transpose M n m :
  shape M = replicate (S n) (S m) →
  shape (dot M (transpose M)) = replicate (S n) (S n).
Proof.
  intros HM.
  assert (length M = S n) as Hlen.
  { apply (f_equal length) in HM.
    unfold shape in HM. by rewrite length_fmap, length_replicate in HM. }
  unfold shape, dot. rewrite <-Hlen at 1.
  apply shape_const. intros row. rewrite length_map. unfold transpose at 1.
  rewrite length_map, length_seq, ncols_transpose; [done|].
  rewrite (ncols_replicate M n (S m) HM). lia.
Qed.

(** On an array with at least one entry the code's normalization returns,
    its result is the specification's, and the shape is kept. *)
Lemma normalize_matrix_spec M :
  concat M ≠ [] →
  ∃ M', normalize_matrix M = Ok M'
        ∧ spec_normalize M = Some M'
        ∧ shape M' = shape M.
Proof.
  intros Hne. destruct (mat_min_max_total M Hne) as (mn & mx & Hmin & Hmax).
  eexists. split; [by apply normalize_matrix_eq|].
  unfold spec_normalize.
  apply mat_min_Ok in Hmin as ->. apply mat_max_Ok in Hmax as ->.
  split; [done|].
  destruct (decide (mx = mn)); [done|]. apply shape_mat_map.
Qed.

Lemma for_each_get_category_match_score s prefs :
  ∃ row, for_each (get_category_match_score (PyStr s)) prefs = Ok row
         ∧ length row = length prefs.
Proof.
  induction prefs as [|p prefs (row & IH & Hlen)].
  - by exists [].
  - cbn [for_each].
    assert (∃ y, get_category_match_score (PyStr s) p = Ok y) as [y ->]
      by (by eexists).
    rewrite IH. eexists. split; [done|]. simpl. by rewrite Hlen.
Qed.

Lemma build_category_match_matrix_PyStr (cs : list string) prefs :
  ∃ M, build_category_match_matrix (PyStr <$> cs) prefs = Ok M
       ∧ shape M = replicate (length cs) (length prefs).
Proof.
  unfold build_category_match_matrix.
  induction cs as [|c cs (M & IH & HM)].
  - by exists [].
  - rewrite fmap_cons. cbn [for_each].
    destruct (for_each_get_category_match_score c prefs) as (row & -> & Hrow).
    cbn [mbind result_bind]. rewrite IH.
    eexists. split; [done|]. unfold shape in *.
    rewrite fmap_cons. cbn [length replicate]. by rewrite Hrow, HM.
Qed.

Lemma for_each_lookup {A B} (f : A → result B) l v i x :
  for_each f l = Ok v → l !! i = Some x →
  ∃ y, f x = Ok y ∧ v !! i = Some y.
Proof.
  revert v i. induction l as [|a l IH]; intros v i Hv Hi; [done|].
  cbn [for_each] in Hv.
  destruct (f a) as [b|] eqn:Ea; [|done].
  cbn [mbind result_bind] in Hv.
  destruct (for_each f l) as [bs|] eqn:El; [|done].
  cbn [mbind result_bind] in Hv. injection Hv as <-.
  destruct i as [|i]; simpl in *.
  - injection Hi as <-. eauto.
  - eapply IH; eauto.
Qed.

Lemma token_set_strip c : token_set (strip c) = token_set c.
Proof. unfold token_set. by rewrite fmap_strip_split_comma_strip. Qed.

(** The matrix built at lines 53-56 is the category indicator matrix:
    entry [(i, k)] is 1 when label [k] of the vocabulary, lowercased, is a
    trimmed, lowercased token of row [i]'s [Category], and 0 otherwise. *)
Lemma build_category_match_matrix_indicator (cs prefs : list string) M i k c p :
  build_category_match_matrix (str_strip <$> (PyStr <$> cs)) prefs = Ok M →
  cs !! i = Some c → prefs !! k = Some p →
  M !! i ≫= (.!! k)
  = Some (if decide (lower p ∈ token_set c) then 1%Qc else 0%Qc).
Proof.
  intros HM Hc Hp. unfold build_category_match_matrix in HM.
  destruct (for_each_lookup _ _ _ i (PyStr (strip c)) HM) as (row & Hrow & ->).
  { by rewrite !list_lookup_fmap, Hc. }
  destruct (for_each_lookup _ _ _ k p Hrow Hp) as (y & Hy & Hk).
  cbn [mbind option_bind]. rewrite Hk. f_equal.
  unfold get_category_match_score in Hy.
  cbn [py_split mbind result_bind] in Hy. injection Hy as <-.
  rewrite <-(token_set_strip c). unfold token_set.
  rewrite <-list_fmap_compose.
  destruct (decide (lower p ∈ _)) as [Hin|Hnin];
    destruct (decide (lower p ∈ _)) as [Hin'|Hnin']; try done.
  - destruct Hnin'. by apply elem_of_list_to_set.
  - destruct Hnin. by apply elem_of_list_to_set in Hin'.
Qed.

Lemma unique_preferences_not_nil (cs : list string) v :
  cs ≠ [] →
  unique_preferences (str_strip <$> (PyStr <$> cs)) = Ok v → v ≠ [].
Proof.
  intros Hcs Hv.
  destruct (unique_preferences_PyStr cs) as (v' & Hv' & Hmem).
  rewrite Hv in Hv'. injection Hv' as <-.
  destruct cs as [|c cs]; [done|].
  destruct (split_comma c) as [|t ts] eqn:Et.
  { by destruct (split_comma_not_nil c). }
  assert (strip t ∈ v) as Hin.
  { apply Hmem. exists c, t. rewrite Et. set_solver. }
  intros ->. by apply elem_of_nil in Hin.
Qed.

(** C6.  For a catalog of [N > 0] rows whose [Category] cells are strings
    and an [N × N] content-similarity matrix, the builder runs to the end
    and its hybrid matrix is the min-max normalization of
    [0.6 · C' + 0.4 · (M' · M'ᵗ)], where [C'] and [M'] are the separately
    normalized content-similarity matrix and category indicator matrix
    (the matrix the builder fills at lines 53-56). *)
Theorem C6_hybrid_similarity (cs : list string) (cosine : ndarray) :
  cs ≠ [] →
  shape cosine = replicate (length cs) (length cs) →
  ∃ model CategoryMatch,
    train (PyStr <$> cs) cosine = Ok model
    ∧ build_category_match_matrix (str_strip <$> (PyStr <$> cs))
        (model_unique_preferences model) = Ok CategoryMatch
    ∧ is_category_indicator cs (model_unique_preferences model) CategoryMatch
    ∧ spec_HybridSimilarity cosine CategoryMatch
      = Some (model_hybrid_similarity model).
Proof.
  intros Hcs Hcos. unfold train.
  destruct (unique_preferences_PyStr cs) as (v & Hv & _).
  pose proof (unique_preferences_not_nil cs v Hcs Hv) as Hvne.
  rewrite Hv. cbn [mbind result_bind].
  rewrite str_strip_fmap_PyStr.
  destruct (build_category_match_matrix_PyStr (strip <$> cs) v)
    as (M & HM & HshM).
  pose proof HM as HM0. rewrite <-str_strip_fmap_PyStr in HM0.
  pose proof HshM as HshM0. rewrite length_fmap in HshM0.
  rewrite HM. cbn [mbind result_bind]. rewrite length_fmap in HshM.
  destruct cs as [|c0 cs0] eqn:Ecs; [done|]. rewrite <-Ecs in *.
  assert (length cs = S (length cs0)) as Hn by (by rewrite Ecs).
  destruct v as [|p0 v0] eqn:Ev; [done|]. rewrite <-Ev in *.
  assert (length v = S (length v0)) as Hp by (by rewrite Ev).
  rewrite Hn in Hcos. rewrite Hn, Hp in HshM.
  destruct (normalize_matrix_spec cosine) as (C' & HC' & HsC' & HshC').
  { by eapply shape_concat_not_nil. }
  destruct (normalize_matrix_spec M) as (M' & HM' & HsM' & HshM').
  { by eapply shape_concat_not_nil. }
  rewrite HC'. cbn [mbind result_bind]. rewrite HM'. cbn [mbind result_bind].
  rewrite HshM in HshM'. rewrite Hcos in HshC'.
  pose proof (shape_dot_transpose M' _ _ HshM') as Hdot.
  unfold mat_add.
  assert (shape (mat_scale (Q2Qc (6 # 10)) C')
          = shape (mat_scale (Q2Qc (4 # 10)) (dot M' (transpose M'))))
    as Hsame.
  { unfold mat_scale. by rewrite !shape_mat_map, HshC', Hdot. }
  rewrite decide_True by exact Hsame. cbn [mbind result_bind].
  fold (mat_plus (mat_scale (Q2Qc (6 # 10)) C')
                 (mat_scale (Q2Qc (4 # 10)) (dot M' (transpose M')))).
  destruct (normalize_matrix_spec
              (mat_plus (mat_scale (Q2Qc (6 # 10)) C')
                 (mat_scale (Q2Qc (4 # 10)) (dot M' (transpose M')))))
    as (H' & HH' & HsH' & _).
  { eapply shape_concat_not_nil. rewrite shape_mat_plus by exact Hsame.
    unfold mat_scale. rewrite shape_mat_map. exact HshC'. }
  rewrite HH'. cbn [mbind result_bind]. eexists _, M.
  split; [done|]. split; [done|]. split.
  { split; [exact HshM0|]. intros i k c p Hci Hpk.
    by eapply build_category_match_matrix_indicator. }
  unfold spec_HybridSimilarity. rewrite HsC', HsM'. exact HsH'.
Qed.

Lemma C6_hybrid_similarity_witness :
  ∃ model CategoryMatch,
    train (PyStr <$> ["Beach, Adventure"; "beach,Culture"])
          [[1; Q2Qc (1 # 4)]; [Q2Qc (1 # 4); 1]]%Qc = Ok model
    ∧ build_category_match_matrix
        (str_strip <$> (PyStr <$> ["Beach, Adventure"; "beach,Culture"]))
        (model_unique_preferences model) = Ok CategoryMatch
    ∧ is_category_indicator ["Beach, Adventure"; "beach,Culture"]
        (model_unique_preferences model) CategoryMatch
    ∧ spec_HybridSimilarity [[1; Q2Qc (1 # 4)]; [Q2Qc (1 # 4); 1]]%Qc
        CategoryMatch
      = Some (model_hybrid_similarity model).
Proof.
  apply (C6_hybrid_similarity ["Beach, Adventure"; "beach,Culture"]
           [[1; Q2Qc (1 # 4)]; [Q2Qc (1 # 4); 1]]%Qc).
  - discriminate.
  - reflexivity.
Defined.

(** * Further properties of the scorer *)

Lemma Qc_div_le_mono (x y b : Qc) : (0 < b → x ≤ y ↔ x / b ≤ y / b)%Qc.
Proof.
  intros Hb. unfold Qcdiv. apply Qcmult_le_mono_pos_r. by apply Qcinv_pos.
Qed.

Lemma Qc_div_inj (x y b : Qc) : b ≠ 0%Qc → (x / b = y / b)%Qc → x = y.
Proof.
  intros Hb E. rewrite <-(Qcmult_div_r x b Hb), <-(Qcmult_div_r y b Hb).
  by rewrite E.
Qed.

Lemma Qc_of_nat_pos (n : nat) : n ≠ 0%nat → (0 < Qc_of_Z (Z.of_nat n))%Qc.
Proof. intros Hn. rewrite <-Z2Qc_inj_0, <-Z2Qc_inj_lt. lia. Qed.

Lemma Qc_of_nat_le (n m : nat) :
  (n ≤ m)%nat ↔ (Qc_of_Z (Z.of_nat n) ≤ Qc_of_Z (Z.of_nat m))%Qc.
Proof. rewrite <-Z2Qc_inj_le. lia. Qed.

Lemma size_token_set_ne_0 s : size (token_set s) ≠ 0%nat.
Proof.
  intros E%size_empty_iff%leibniz_equiv. by apply (token_set_not_empty s).
Qed.

Lemma overlap_le_1 Q D : size Q ≠ 0%nat → (overlap Q D ≤ 1)%Qc.
Proof.
  intros HQ. unfold overlap.
  rewrite <-(Qcmult_inv_r (Qc_of_Z (Z.of_nat (size Q))))
    by (by apply Qc_of_nat_ne_0).
  apply Qc_div_le_mono; [by apply Qc_of_nat_pos|].
  apply Qc_of_nat_le, subseteq_size. set_solver.
Qed.

Lemma overlap_ge_0 Q D : size Q ≠ 0%nat → (0 ≤ overlap Q D)%Qc.
Proof.
  intros HQ. unfold overlap.
  rewrite <-(Qcmult_0_l (/ Qc_of_Z (Z.of_nat (size Q)))).
  apply Qc_div_le_mono; [by apply Qc_of_nat_pos|].
  rewrite <-Z2Qc_inj_0, <-Z2Qc_inj_le. lia.
Qed.

(** X1.  Whatever the two arguments are, the score lies between 0 and 1. *)
Theorem score_in_unit_interval (query_categories destination_categories : pyval) :
  (0 ≤ calculate_similarity_score query_categories destination_categories
   ∧ calculate_similarity_score query_categories destination_categories ≤ 1)%Qc.
Proof.
  destruct query_categories as [q| | |];
    try (rewrite calculate_similarity_score_not_str by (left; done); done).
  destruct destination_categories as [d| | |];
    try (rewrite calculate_similarity_score_not_str by (right; done); done).
  rewrite calculate_similarity_score_str. split.
  - apply overlap_ge_0, size_token_set_ne_0.
  - apply overlap_le_1, size_token_set_ne_0.
Qed.

(** X2.  On two strings the score is 1 exactly when every label of the
    query is a label of the destination, and 0 exactly when they share no
    label. *)
Theorem score_one_zero_iff (q d : string) :
  (calculate_similarity_score (PyStr q) (PyStr d) = 1%Qc
   ↔ token_set q ⊆ token_set d)
  ∧ (calculate_similarity_score (PyStr q) (PyStr d) = 0%Qc
     ↔ token_set q ∩ token_set d = ∅).
Proof.
  rewrite calculate_similarity_score_str. unfold overlap.
  pose proof (size_token_set_ne_0 q) as Hq.
  pose proof (Qc_of_nat_ne_0 _ Hq) as Hq'.
  split; split.
  - intros E. rewrite <-(Qcmult_inv_r _ Hq') in E.
    apply Qc_div_inj, Z2Qc_inj in E; [|done].
    assert (token_set q ∩ token_set d = token_set q) as <-; [|set_solver].
    apply set_subseteq_size_eq; [set_solver|lia].
  - intros Hsub.
    assert (token_set q ∩ token_set d = token_set q) as -> by set_solver.
    by apply Qcmult_inv_r.
  - intros E. rewrite <-(Qcmult_0_l (/ Qc_of_Z (Z.of_nat (size (token_set q))))) in E.
    apply Qc_div_inj in E; [|done].
    rewrite <-Z2Qc_inj_0 in E. apply Z2Qc_inj in E.
    apply leibniz_equiv, size_empty_iff. lia.
  - intros ->. rewrite size_empty. apply Qcmult_0_l.
Qed.

Lemma lower_char_comma c : Ascii.eqb (lower_char c) "," = Ascii.eqb c ",".
Proof. destruct c as [[] [] [] [] [] [] [] []]; by vm_compute. Qed.

Lemma lower_char_is_space c : is_space (lower_char c) = is_space c.
Proof. destruct c as [[] [] [] [] [] [] [] []]; by vm_compute. Qed.

Lemma lower_char_idemp c : lower_char (lower_char c) = lower_char c.
Proof. destruct c as [[] [] [] [] [] [] [] []]; by vm_compute. Qed.

Lemma lower_idemp s : lower (lower s) = lower s.
Proof. induction s as [|c s IH]; simpl; [done|]. by rewrite lower_char_idemp, IH. Qed.

Lemma lstrip_lower s : lstrip (lower s) = lower (lstrip s).
Proof.
  induction s as [|c s IH]; simpl; [done|].
  rewrite lower_char_is_space. by destruct (is_space c).
Qed.

Lemma rstrip_lower s : rstrip (lower s) = lower (rstrip s).
Proof.
  induction s as [|c s IH]; simpl; [done|].
  rewrite IH, lower_char_is_space.
  destruct (rstrip s); simpl; [|done]. by destruct (is_space c).
Qed.

Lemma strip_lower s : strip (lower s) = lower (strip s).
Proof. unfold strip. by rewrite lstrip_lower, rstrip_lower. Qed.

Lemma split_comma_lower s : split_comma (lower s) = lower <$> split_comma s.
Proof.
  induction s as [|c s IH]; simpl; [done|].
  rewrite lower_char_comma, IH.
  destruct (Ascii.eqb c ","); [done|].
  pose proof (split_comma_not_nil s).
  by destruct (split_comma s).
Qed.

Lemma token_set_lower s : token_set (lower s) = token_set s.
Proof.
  unfold token_set. rewrite split_comma_lower.
  rewrite <-!list_fmap_compose. f_equal. apply list_fmap_ext.
  intros _ t _. simpl. by rewrite strip_lower, lower_idemp.
Qed.

(** X3.  Letter case and surrounding whitespace of either argument do not
    change the score. *)
Theorem score_ignores_case_and_padding (q d : string) :
  calculate_similarity_score (PyStr (lower q)) (PyStr (lower d))
  = calculate_similarity_score (PyStr q) (PyStr d)
  ∧ calculate_similarity_score (PyStr (strip q)) (PyStr (strip d))
    = calculate_similarity_score (PyStr q) (PyStr d).
Proof.
  rewrite !calculate_similarity_score_str.
  by rewrite !token_set_lower, !token_set_strip.
Qed.

(** X4.  A destination that carries every label of another one scores at
    least as high against every query. *)
Theorem score_monotone_in_destination (q d d' : string) :
  token_set d ⊆ token_set d' →
  (calculate_similarity_score (PyStr q) (PyStr d)
   ≤ calculate_similarity_score (PyStr q) (PyStr d'))%Qc.
Proof.
  intros Hsub. rewrite !calculate_similarity_score_str. unfold overlap.
  apply Qc_div_le_mono.
  - apply Qc_of_nat_pos, size_token_set_ne_0.
  - apply Qc_of_nat_le, subseteq_size. set_solver.
Qed.

Lemma score_monotone_in_destination_witness :
  (calculate_similarity_score (PyStr "beach,fort") (PyStr "Beach")
   ≤ calculate_similarity_score (PyStr "beach,fort") (PyStr "Fort, Beach"))%Qc.
Proof.
  apply (score_monotone_in_destination "beach,fort" "Beach" "Fort, Beach").
  apply (bool_decide_unpack _). vm_compute. exact I.
Defined.

(** * Further properties of the three query modes *)

Lemma foldl_if_filter {A B} (p : B → bool) (f : A → B → A) a l :
  foldl (λ acc x, if p x then f acc x else acc) a l
  = foldl f a (filter (λ x, p x = true) l).
Proof.
  revert a. induction l as [|x l IH]; intros a; [done|].
  cbn [foldl]. rewrite IH. destruct (p x) eqn:E.
  - by rewrite filter_cons_True.
  - rewrite filter_cons_False; [done|]. by rewrite E.
Qed.

Lemma get_custom_recommendations_ranking destinations_df preferences state :
  get_custom_recommendations destinations_df preferences state
  = ranking preferences
      (if truthy state
       then filter (λ d, series_eq (dest_State d) state = true) destinations_df
       else destinations_df).
Proof.
  unfold get_custom_recommendations, try_except, ranking.
  by rewrite custom_loop_scored_candidates.
Qed.

Lemma get_recommendations_by_user_ranking destinations_df users_df user_id :
  get_recommendations_by_user destinations_df users_df user_id
  = match filter (λ u, py_str (user_UserID u) = py_str user_id) users_df with
    | [] => []
    | user :: _ => ranking (user_TravelPreferences user) destinations_df
    end.
Proof.
  unfold get_recommendations_by_user, try_except, ranking.
  destruct (filter _ users_df) as [|user ?]; [done|].
  by rewrite custom_loop_scored_candidates.
Qed.

Lemma get_recommendations_by_destination_ranking destinations_df name :
  get_recommendations_by_destination destinations_df name
  = match filter (λ d, series_eq (dest_Name d) name = true) destinations_df with
    | [] => []
    | selected_dest :: _ =>
        ranking (dest_Category selected_dest)
          (filter (λ d, negb (py_eq (dest_Name d) name) = true)
                  destinations_df)
    end.
Proof.
  unfold get_recommendations_by_destination, try_except, ranking.
  destruct (filter _ destinations_df) as [|sel ?]; [done|].
  rewrite (foldl_if_filter (λ d, negb (py_eq (dest_Name d) name))
             (λ recommendations dest,
                let score :=
                  calculate_similarity_score (dest_Category sel)
                    (dest_Category dest) in
                if bool_decide (0 < score)%Qc
                then recommendations ++ [recommendation_of dest score]
                else recommendations)).
  by rewrite custom_loop_scored_candidates.
Qed.

(** X5.  The three modes share one ranking: the user mode is the custom
    mode run on the travel preferences of the first user with that id, the
    destination mode is the custom mode run on the category of the first
    row with that name over the rows with another name, and a region
    filter is the custom mode run on the rows of that state. *)
Theorem modes_are_custom_rankings
    (destinations_df : list Destination) (users_df : list User)
    (destination_name user_id preferences state : pyval) :
  get_recommendations_by_user destinations_df users_df user_id
  = match filter (λ u, py_str (user_UserID u) = py_str user_id) users_df with
    | [] => []
    | user :: _ =>
        get_custom_recommendations destinations_df
          (user_TravelPreferences user) PyNone
    end
  ∧ get_recommendations_by_destination destinations_df destination_name
    = match filter (λ d, series_eq (dest_Name d) destination_name = true)
                   destinations_df with
      | [] => []
      | selected_dest :: _ =>
          get_custom_recommendations
            (filter (λ d, negb (py_eq (dest_Name d) destination_name) = true)
                    destinations_df)
            (dest_Category selected_dest) PyNone
      end
  ∧ get_custom_recommendations destinations_df preferences state
    = get_custom_recommendations
        (if truthy state
         then filter (λ d, series_eq (dest_State d) state = true)
                     destinations_df
         else destinations_df)
        preferences PyNone.
Proof.
  rewrite get_recommendations_by_user_ranking,
    get_recommendations_by_destination_ranking.
  split; [|split].
  - destruct (filter _ users_df); [done|].
    by rewrite get_custom_recommendations_ranking.
  - destruct (filter _ destinations_df); [done|].
    by rewrite get_custom_recommendations_ranking.
  - by rewrite !get_custom_recommendations_ranking.
Qed.

Lemma elem_of_scored_candidates r query rows :
  r ∈ scored_candidates query rows ↔
  ∃ dest, dest ∈ rows
          ∧ (0 < calculate_similarity_score query (dest_Category dest))%Qc
          ∧ r = recommendation_of dest
                  (calculate_similarity_score query (dest_Category dest)).
Proof.
  unfold scored_candidates. rewrite list_elem_of_omap. split.
  - intros (dest & Hin & H). exists dest. split; [done|].
    cbn zeta in H. destruct (bool_decide _) eqn:E; [|done].
    apply bool_decide_eq_true in E. by injection H as <-.
  - intros (dest & Hin & Hpos & ->). exists dest. split; [done|].
    cbn zeta. by rewrite bool_decide_eq_true_2.
Qed.

Lemma elem_of_ranking r query rows :
  r ∈ ranking query rows → r ∈ scored_candidates query rows.
Proof.
  unfold ranking. intros (i & H & _)%elem_of_take.
  apply list_elem_of_lookup_2 in H.
  by rewrite sort_reverse_Permutation in H.
Qed.

Lemma ranking_inv (P : Recommendation → Prop) query rows :
  (∀ dest, dest ∈ rows →
     (0 < calculate_similarity_score query (dest_Category dest))%Qc →
     P (recommendation_of dest
          (calculate_similarity_score query (dest_Category dest)))) →
  Forall P (ranking query rows).
Proof.
  intros H. apply Forall_forall. intros r Hr%elem_of_ranking.
  apply elem_of_scored_candidates in Hr as (dest & Hin & Hpos & ->). auto.
Qed.

Lemma score_le_1 q d : (calculate_similarity_score q d ≤ 1)%Qc.
Proof.
  destruct q as [q| | |];
    try (rewrite calculate_similarity_score_not_str by (left; done); done).
  destruct d as [d| | |];
    try (rewrite calculate_similarity_score_not_str by (right; done); done).
  rewrite calculate_similarity_score_str.
  apply overlap_le_1, size_token_set_ne_0.
Qed.

Lemma ranking_MatchScore query rows :
  Forall (λ r, 0 < MatchScore r ∧ MatchScore r ≤ 1)%Qc (ranking query rows).
Proof.
  apply ranking_inv. intros dest _ Hpos. split; [done|]. apply score_le_1.
Qed.

(** X6.  In each of the three modes every returned recommendation has a
    match score above 0 and at most 1. *)
Theorem MatchScore_positive_at_most_one
    (destinations_df : list Destination) (users_df : list User)
    (destination_name user_id preferences state : pyval) :
  Forall (λ r, 0 < MatchScore r ∧ MatchScore r ≤ 1)%Qc
    (get_recommendations_by_destination destinations_df destination_name)
  ∧ Forall (λ r, 0 < MatchScore r ∧ MatchScore r ≤ 1)%Qc
      (get_recommendations_by_user destinations_df users_df user_id)
  ∧ Forall (λ r, 0 < MatchScore r ∧ MatchScore r ≤ 1)%Qc
      (get_custom_recommendations destinations_df preferences state).
Proof.
  rewrite get_recommendations_by_user_ranking,
    get_recommendations_by_destination_ranking,
    get_custom_recommendations_ranking.
  split; [|split].
  - destruct (filter _ destinations_df); [constructor|apply ranking_MatchScore].
  - destruct (filter _ users_df); [constructor|apply ranking_MatchScore].
  - apply ranking_MatchScore.
Qed.

(** X7.  Every recommendation of the custom mode is built from a row of the
    catalog, carries that row's score against the preferences, and, when a
    region is given, comes from a row of that region. *)
Theorem custom_recommendations_come_from_region
    (destinations_df : list Destination) (preferences state : pyval) :
  Forall (λ r, ∃ dest,
            dest ∈ destinations_df
            ∧ r = recommendation_of dest
                    (calculate_similarity_score preferences
                       (dest_Category dest))
            ∧ (truthy state = true → series_eq (dest_State dest) state = true))
    (get_custom_recommendations destinations_df preferences state).
Proof.
  rewrite get_custom_recommendations_ranking.
  apply ranking_inv. intros dest Hin _. exists dest.
  destruct (truthy state).
  - apply list_elem_of_filter in Hin as [Hst Hin]. done.
  - done.
Qed.

(** X8.  Over a catalog whose names are strings the destination mode never
    recommends the destination that was asked about. *)
Theorem destination_mode_excludes_query
    (destinations_df : list Destination) (n : string) :
  Forall (λ d, ∃ s, dest_Name d = PyStr s) destinations_df →
  Forall (λ r, Name r ≠ n)
    (get_recommendations_by_destination destinations_df (PyStr n)).
Proof.
  intros Hstr. rewrite get_recommendations_by_destination_ranking.
  destruct (filter _ destinations_df) as [|sel ?]; [constructor|].
  apply ranking_inv. intros dest [Hne Hin]%list_elem_of_filter _.
  eapply Forall_forall in Hstr as [s Hs]; [|exact Hin].
  unfold recommendation_of. cbn [Name]. rewrite Hs in *. cbn in *.
  intros ->. by rewrite String.eqb_refl in Hne.
Qed.

Lemma destination_mode_excludes_query_witness :
  Forall (λ r, Name r ≠ "A")
    (get_recommendations_by_destination scenario_catalog (PyStr "A")).
Proof.
  apply (destination_mode_excludes_query scenario_catalog "A").
  repeat constructor; by eexists.
Defined.







Lemma ranking_not_str query rows :
  (∀ s, query ≠ PyStr s) → ranking query rows = [].
Proof.
  intros Hq. unfold ranking.
  assert (scored_candidates query rows = []) as ->; [|done].
  unfold scored_candidates. induction rows as [|dest rows IH]; [done|].
  cbn [omap list_omap]. cbn zeta.
  rewrite calculate_similarity_score_not_str by (by left).
  rewrite bool_decide_eq_false_2; [exact IH|]. apply Qcle_not_lt, Qcle_refl.
Qed.

(** X11.  Preferences that are not a string recommend nothing: the custom
    mode returns the empty list for them, and so does the user mode for a
    user whose TravelPreferences cell is missing. *)
Theorem non_string_preferences_give_empty
    (destinations_df : list Destination) (users_df : list User)
    (preferences state user_id : pyval) :
  ((∀ s, preferences ≠ PyStr s) →
   get_custom_recommendations destinations_df preferences state = [])
  ∧ (Forall (λ u, ∀ s, user_TravelPreferences u ≠ PyStr s)
            (filter (λ u, py_str (user_UserID u) = py_str user_id) users_df) →
     get_recommendations_by_user destinations_df users_df user_id = []).
Proof.
  split.
  - intros H. rewrite get_custom_recommendations_ranking.
    by apply ranking_not_str.
  - intros H. rewrite get_recommendations_by_user_ranking.
    destruct (filter _ users_df) as [|u ?]; [done|].
    apply Forall_cons in H as [H _]. by apply ranking_not_str.
Qed.

Lemma non_string_preferences_give_empty_witness :
  get_custom_recommendations scenario_catalog (PyInt 7) (PyStr "Goa") = []
  ∧ get_recommendations_by_user scenario_catalog scenario_users (PyInt 2) = [].
Proof.
  pose proof (non_string_preferences_give_empty scenario_catalog
                scenario_users (PyInt 7) (PyStr "Goa") (PyInt 2)) as [H1 H2].
  split.
  - apply H1. discriminate.
  - apply H2. repeat constructor. discriminate.
Defined.

(** * Properties of the routes *)

Lemma series_eq_PyStr cell n : series_eq cell (PyStr n) = true ↔ cell = PyStr n.
Proof.
  destruct cell; simpl; try (split; [done|discriminate]).
  rewrite String.eqb_eq. split; congruence.
Qed.

Lemma filter_nil_Forall {A} (P : A → Prop) `{!∀ x, Decision (P x)} l :
  filter P l = [] → Forall (λ x, ¬ P x) l.
Proof.
  induction l as [|x l IH]; [constructor|].
  rewrite filter_cons. destruct (decide (P x)); [done|]. auto.
Qed.

Lemma filter_cons_head {A} (P : A → Prop) `{!∀ x, Decision (P x)} l x k :
  filter P l = x :: k → x ∈ l ∧ P x.
Proof.
  intros E. assert (x ∈ filter P l) as Hx by (rewrite E; left).
  apply list_elem_of_filter in Hx. tauto.
Qed.

(** X12.  The destination lookup and the destination mode resolve a name
    the same way.  For a non-empty name, either some row carries it, the
    lookup answers 200 with the fields of the first such row and the
    recommendations are ranked against that row's category; or no row
    carries it, the lookup answers 404 and the recommendation list is
    empty. *)
Theorem destination_lookup_agrees_with_mode
    (destinations_df : list Destination) (n : string) :
  n ≠ "" →
  (∃ d, d ∈ destinations_df
        ∧ dest_Name d = PyStr n
        ∧ get_destination_details destinations_df (Some n)
          = (DestinationDetails (py_str (dest_District d))
               (py_str (dest_State d)) (py_str (dest_Category d))
               (py_str (dest_BestTimeToVisit d)), 200%nat)
        ∧ get_recommendations_by_destination destinations_df (PyStr n)
          = get_custom_recommendations
              (filter (λ d', negb (py_eq (dest_Name d') (PyStr n)) = true)
                      destinations_df)
              (dest_Category d) PyNone)
  ∨ (Forall (λ d, dest_Name d ≠ PyStr n) destinations_df
     ∧ get_destination_details destinations_df (Some n)
       = (ErrorBody "Destination not found", 404%nat)
     ∧ get_recommendations_by_destination destinations_df (PyStr n) = []).
Proof.
  intros Hn. apply String.eqb_neq in Hn.
  rewrite get_recommendations_by_destination_ranking.
  unfold get_destination_details, try_except, arg_missing.
  rewrite Hn. cbn [default from_option].
  destruct (filter _ destinations_df) as [|d k] eqn:E.
  - right. split; [|done].
    apply filter_nil_Forall in E. eapply Forall_impl; [exact E|].
    intros d Hd Hname. apply Hd. by apply series_eq_PyStr.
  - left. apply filter_cons_head in E as [Hin Hd].
    exists d. split; [done|]. split; [by apply series_eq_PyStr|].
    split; [done|]. by rewrite get_custom_recommendations_ranking.
Qed.

Lemma destination_lookup_agrees_with_mode_witness :
  (∃ d, d ∈ scenario_catalog
        ∧ dest_Name d = PyStr "B"
        ∧ get_destination_details scenario_catalog (Some "B")
          = (DestinationDetails (py_str (dest_District d))
               (py_str (dest_State d)) (py_str (dest_Category d))
               (py_str (dest_BestTimeToVisit d)), 200%nat)
        ∧ get_recommendations_by_destination scenario_catalog (PyStr "B")
          = get_custom_recommendations
              (filter (λ d', negb (py_eq (dest_Name d') (PyStr "B")) = true)
                      scenario_catalog)
              (dest_Category d) PyNone)
  ∨ (Forall (λ d, dest_Name d ≠ PyStr "B") scenario_catalog
     ∧ get_destination_details scenario_catalog (Some "B")
       = (ErrorBody "Destination not found", 404%nat)
     ∧ get_recommendations_by_destination scenario_catalog (PyStr "B") = []).
Proof.
  apply (destination_lookup_agrees_with_mode scenario_catalog "B").
  discriminate.
Defined.

(** X13.  The user lookup and the user mode resolve an id the same way.
    For a non-empty id over users whose UserID cells are not missing,
    either some user's id reads as that string, the recommendations are
    those of the custom mode for the travel preferences of the first such
    user, and the lookup answers 200 with that user's fields when both
    count cells convert to integers and 500 when one of them does not; or
    there is no such user, the lookup answers 404 and the recommendation
    list is empty. *)
Theorem user_lookup_agrees_with_mode
    (destinations_df : list Destination) (users_df : list User)
    (id : string) :
  id ≠ "" →
  Forall (λ u, is_missing (user_UserID u) = false) users_df →
  (∃ u, u ∈ users_df
        ∧ py_str (user_UserID u) = id
        ∧ get_user_details users_df (Some id)
          = match py_int (user_NumberOfAdults u),
                  py_int (user_NumberOfChildren u) with
            | Ok adults, Ok children =>
                (UserDetails (py_str (user_Name u)) (py_str (user_Gender u))
                   (py_str (user_Location u))
                   (py_str (user_TravelPreferences u))
                   adults children, 200%nat)
            | _, _ => (ErrorBody "Failed to retrieve user details", 500%nat)
            end
        ∧ get_recommendations_by_user destinations_df users_df (PyStr id)
          = get_custom_recommendations destinations_df
              (user_TravelPreferences u) PyNone)
  ∨ (Forall (λ u, py_str (user_UserID u) ≠ id) users_df
     ∧ get_user_details users_df (Some id)
       = (ErrorBody "User not found", 404%nat)
     ∧ get_recommendations_by_user destinations_df users_df (PyStr id) = []).
Proof.
  intros Hn%String.eqb_neq _.
  rewrite get_recommendations_by_user_ranking.
  unfold get_user_details, try_except, arg_missing.
  rewrite Hn. cbn [default from_option py_str].
  destruct (filter _ users_df) as [|u k] eqn:E.
  - right. split; [|done]. by apply filter_nil_Forall in E.
  - left. apply filter_cons_head in E as [Hin Hu].
    exists u. split; [done|]. split; [done|]. split.
    + by destruct (py_int (user_NumberOfAdults u)),
                  (py_int (user_NumberOfChildren u)).
    + by rewrite get_custom_recommendations_ranking.
Qed.

Lemma user_lookup_agrees_with_mode_witness :
  (∃ u, u ∈ scenario_users
        ∧ py_str (user_UserID u) = "2"
        ∧ get_user_details scenario_users (Some "2")
          = match py_int (user_NumberOfAdults u),
                  py_int (user_NumberOfChildren u) with
            | Ok adults, Ok children =>
                (UserDetails (py_str (user_Name u)) (py_str (user_Gender u))
                   (py_str (user_Location u))
                   (py_str (user_TravelPreferences u))
                   adults children, 200%nat)
            | _, _ => (ErrorBody "Failed to retrieve user details", 500%nat)
            end
        ∧ get_recommendations_by_user scenario_catalog scenario_users
            (PyStr "2")
          = get_custom_recommendations scenario_catalog
              (user_TravelPreferences u) PyNone)
  ∨ (Forall (λ u, py_str (user_UserID u) ≠ "2") scenario_users
     ∧ get_user_details scenario_users (Some "2")
       = (ErrorBody "User not found", 404%nat)
     ∧ get_recommendations_by_user scenario_catalog scenario_users
         (PyStr "2") = []).
Proof.
  apply (user_lookup_agrees_with_mode scenario_catalog scenario_users "2").
  - discriminate.
  - repeat constructor.
Defined.

Example user_lookup_blank_count :
  get_user_details scenario_users (Some "2")
  = (ErrorBody "Failed to retrieve user details", 500%nat)
  ∧ get_user_details scenario_users (Some "1")
    = (UserDetails "Asha" "F" "Pune" "Beach, Culture" 2 0, 200%nat).
Proof. split; reflexivity. Qed.






Example get_recommendations_unreadable :
  get_recommendations scenario_catalog scenario_users (JsonOther "list" true)
  = (ErrorBody "'list' object has no attribute 'get'", 500%nat).
Proof. reflexivity. Qed.

(** * Further properties of the builder: normalization *)

Lemma concat_mat_map f (M : ndarray) : concat (mat_map f M) = f <$> concat M.
Proof.
  unfold mat_map. induction M as [|row M IH]; [done|].
  cbn [map concat]. by rewrite fmap_app, IH.
Qed.

Lemma Forall_concat_rows {A} (P : A → Prop) (M : list (list A)) :
  Forall (Forall P) M ↔ Forall P (concat M).
Proof.
  induction M as [|row M IH]; simpl.
  - split; constructor.
  - rewrite Forall_cons, Forall_app, IH. done.
Qed.

Lemma mat_map_id (f : Qc → Qc) (M : ndarray) :
  (∀ x, f x = x) → mat_map f M = M.
Proof.
  intros Hf. unfold mat_map.
  rewrite (map_ext _ id); [apply map_id|].
  intros row. rewrite (map_ext _ id); [apply map_id|]. done.
Qed.

(** The two ways a call of [normalize_matrix] can return. *)
Lemma normalize_matrix_inv M M' :
  normalize_matrix M = Ok M' →
  ∃ mn mx, is_min M mn ∧ is_max M mx
           ∧ M' = if decide (mx = mn) then M
                  else mat_map (λ x, (x - mn) / (mx - mn))%Qc M.
Proof.
  intros H.
  assert (concat M ≠ []) as Hne.
  { intros E. unfold normalize_matrix, mat_min in H. by rewrite E in H. }
  destruct (mat_min_max_total M Hne) as (mn & mx & Hmin & Hmax).
  exists mn, mx. split; [done|]. split; [done|].
  rewrite (normalize_matrix_eq M mn mx Hmin Hmax) in H. by injection H.
Qed.

Lemma rescale_bounds (mn mx x : Qc) :
  (mn ≤ x → x ≤ mx → mx ≠ mn →
   0 ≤ (x - mn) / (mx - mn) ∧ (x - mn) / (mx - mn) ≤ 1)%Qc.
Proof.
  intros Hl Hu Hne.
  assert (0 < mx - mn)%Qc as Hpos.
  { apply Qc_range_pos; [by trans x|done]. }
  split.
  - rewrite <-(Qcmult_0_l (/ (mx - mn))). apply Qc_div_le_mono; [done|].
    unfold Qcminus. by rewrite <-Qcle_minus_iff.
  - rewrite <-(Qcmult_inv_r (mx - mn)) by (by apply Qc_range_ne_0).
    apply Qc_div_le_mono; [done|]. unfold Qcminus.
    by rewrite <-Qcplus_le_mono_r.
Qed.

Lemma rescale_min (mn mx : Qc) : ((mn - mn) / (mx - mn) = 0)%Qc.
Proof. unfold Qcminus. rewrite Qcplus_opp_r. apply Qcmult_0_l. Qed.

Lemma rescale_max (mn mx : Qc) : mx ≠ mn → ((mx - mn) / (mx - mn) = 1)%Qc.
Proof. intros H. by apply Qcmult_inv_r, Qc_range_ne_0. Qed.

Lemma normalize_matrix_spread M M' mn mx :
  is_min M mn → is_max M mx → mx ≠ mn →
  M' = mat_map (λ x, (x - mn) / (mx - mn))%Qc M →
  in_unit_interval M' ∧ is_min M' 0%Qc ∧ is_max M' 1%Qc.
Proof.
  intros [Hmn Hmin] [Hmx Hmax] Hne ->.
  assert (Forall (λ x, 0 ≤ x ∧ x ≤ 1)%Qc
            (concat (mat_map (λ x, (x - mn) / (mx - mn))%Qc M))) as Hall.
  { rewrite concat_mat_map. apply Forall_fmap, Forall_forall.
    intros x Hx. apply rescale_bounds; auto. }
  split; [by apply Forall_concat_rows|].
  rewrite Forall_forall in Hall. split; split.
  - rewrite concat_mat_map. apply list_elem_of_fmap.
    exists mn. split; [|done]. symmetry. apply rescale_min.
  - intros x Hx. by apply Hall.
  - rewrite concat_mat_map. apply list_elem_of_fmap.
    exists mx. split; [|done]. symmetry. by apply rescale_max.
  - intros x Hx. by apply Hall.
Qed.

Example normalize_matrix_rescales :
  normalize_matrix [[0; 2]; [1; 2]]%Qc = Ok [[0; 1]; [Q2Qc (1 # 2); 1]]%Qc.
Proof.
  rewrite (normalize_matrix_eq _ 0%Qc 2%Qc)
    by (by (apply mat_min_Ok || apply mat_max_Ok)).
  rewrite decide_False by done. unfold mat_map. cbn [map].
  repeat f_equal; by apply Qc_is_canon.
Qed.

(** X15.  Whenever [normalize_matrix] returns, either all entries of its
    argument are equal and it returns the argument, or every entry of the
    result lies between 0 and 1 and both 0 and 1 occur in it. *)
Theorem normalize_matrix_range (M M' : ndarray) :
  normalize_matrix M = Ok M' →
  (M' = M ∧ ∃ v, is_min M v ∧ is_max M v)
  ∨ (in_unit_interval M' ∧ is_min M' 0%Qc ∧ is_max M' 1%Qc).
Proof.
  intros (mn & mx & Hmin & Hmax & ->)%normalize_matrix_inv.
  destruct (decide (mx = mn)) as [->|Hne].
  - left. eauto.
  - right. by eapply normalize_matrix_spread.
Qed.

Lemma normalize_matrix_range_witness :
  ([[0; 1]; [Q2Qc (1 # 2); 1]]%Qc = [[0; 2]; [1; 2]]%Qc
   ∧ ∃ v, is_min [[0; 2]; [1; 2]]%Qc v ∧ is_max [[0; 2]; [1; 2]]%Qc v)
  ∨ (in_unit_interval [[0; 1]; [Q2Qc (1 # 2); 1]]%Qc
     ∧ is_min [[0; 1]; [Q2Qc (1 # 2); 1]]%Qc 0%Qc
     ∧ is_max [[0; 1]; [Q2Qc (1 # 2); 1]]%Qc 1%Qc).
Proof.
  apply (normalize_matrix_range [[0; 2]; [1; 2]]%Qc).
  exact normalize_matrix_rescales.
Defined.

Lemma normalize_matrix_fixed M :
  is_min M 0%Qc → is_max M 1%Qc → normalize_matrix M = Ok M.
Proof.
  intros Hmin Hmax. rewrite (normalize_matrix_eq M 0 1 Hmin Hmax).
  rewrite decide_False by done. f_equal. apply mat_map_id.
  intros x. by rewrite (right_id 0%Qc Qcminus), (right_id 1%Qc Qcdiv).
Qed.

Lemma normalize_matrix_idemp M M' :
  normalize_matrix M = Ok M' → normalize_matrix M' = Ok M'.
Proof.
  intros H. pose proof H as (mn & mx & Hmin & Hmax & ->)%normalize_matrix_inv.
  destruct (decide (mx = mn)) as [->|Hne]; [done|].
  destruct (normalize_matrix_spread M _ mn mx Hmin Hmax Hne eq_refl)
    as (_ & H0 & H1).
  by apply normalize_matrix_fixed.
Qed.

(** X16.  Normalizing twice is normalizing once: [normalize_matrix]
    returns its own results unchanged. *)
Theorem normalize_matrix_idempotent (M M' : ndarray) :
  normalize_matrix M = Ok M' → normalize_matrix M' = Ok M'.
Proof. apply normalize_matrix_idemp. Qed.

Lemma normalize_matrix_idempotent_witness :
  normalize_matrix [[0; 1]; [Q2Qc (1 # 2); 1]]%Qc
  = Ok [[0; 1]; [Q2Qc (1 # 2); 1]]%Qc.
Proof.
  apply (normalize_matrix_idempotent [[0; 2]; [1; 2]]%Qc).
  exact normalize_matrix_rescales.
Defined.

Lemma normalize_matrix_zero_one M M' :
  is_zero_one M → normalize_matrix M = Ok M' → M' = M.
Proof.
  intros H01 H.
  pose proof H as (mn & mx & Hmin & Hmax & ->)%normalize_matrix_inv.
  destruct (decide (mx = mn)) as [->|Hne]; [done|].
  pose proof (is_min_le_is_max _ _ _ Hmin Hmax) as Hle.
  apply Forall_concat_rows in H01. rewrite Forall_forall in H01.
  destruct (H01 mn (proj1 Hmin)) as [->| ->];
    destruct (H01 mx (proj1 Hmax)) as [->| ->]; try done.
  apply mat_map_id. intros x.
  by rewrite (right_id 0%Qc Qcminus), (right_id 1%Qc Qcdiv).
Qed.

(** * Further properties of the builder: the finished run *)

(** The stages of a run that reaches the pickling step. *)
Lemma train_inv Category0 cosine model :
  train Category0 cosine = Ok model →
  ∃ M H0,
    unique_preferences (str_strip <$> Category0)
    = Ok (model_unique_preferences model)
    ∧ build_category_match_matrix (str_strip <$> Category0)
        (model_unique_preferences model) = Ok M
    ∧ normalize_matrix cosine = Ok (model_content_similarity model)
    ∧ normalize_matrix M = Ok (model_category_match_matrix model)
    ∧ mat_add (mat_scale (Q2Qc (6 # 10)) (model_content_similarity model))
        (mat_scale (Q2Qc (4 # 10))
           (dot (model_category_match_matrix model)
                (transpose (model_category_match_matrix model)))) = Ok H0
    ∧ normalize_matrix H0 = Ok (model_hybrid_similarity model).
Proof.
  unfold train. intros H.
  destruct (unique_preferences _) as [v|] eqn:Ev; [|done].
  cbn [mbind result_bind] in H.
  destruct (build_category_match_matrix _ v) as [M|] eqn:EM; [|done].
  cbn [mbind result_bind] in H.
  destruct (normalize_matrix cosine) as [C'|] eqn:EC; [|done].
  cbn [mbind result_bind] in H.
  destruct (normalize_matrix M) as [M'|] eqn:EM'; [|done].
  cbn [mbind result_bind] in H.
  destruct (mat_add _ _) as [H0|] eqn:Eadd; [|done].
  cbn [mbind result_bind] in H.
  destruct (normalize_matrix H0) as [H'|] eqn:Enorm; [|done].
  cbn [mbind result_bind] in H. injection H as <-.
  cbn [model_unique_preferences model_content_similarity
       model_category_match_matrix model_hybrid_similarity].
  by exists M, H0.
Qed.

Lemma for_each_Forall {A B} (f : A → result B) l v :
  for_each f l = Ok v → Forall (λ y, ∃ x, x ∈ l ∧ f x = Ok y) v.
Proof.
  revert v. induction l as [|a l IH]; intros v H.
  - injection H as <-. constructor.
  - cbn [for_each] in H. destruct (f a) as [b|] eqn:Ea; [|done].
    cbn [mbind result_bind] in H.
    destruct (for_each f l) as [bs|]; [|done].
    cbn [mbind result_bind] in H. injection H as <-.
    constructor.
    + exists a. split; [left|done].
    + eapply Forall_impl; [by apply IH|].
      intros y (x & Hx & Hy). exists x. split; [by right|done].
Qed.

Lemma build_category_match_matrix_zero_one Category prefs M :
  build_category_match_matrix Category prefs = Ok M → is_zero_one M.
Proof.
  unfold build_category_match_matrix. intros H%for_each_Forall.
  eapply Forall_impl; [exact H|]. intros row (c & _ & Hrow%for_each_Forall).
  eapply Forall_impl; [exact Hrow|]. intros y (p & _ & Hy).
  unfold get_category_match_score in Hy.
  destruct (py_split c) as [toks|]; [|done].
  cbn [mbind result_bind] in Hy. injection Hy as <-.
  destruct (decide _); auto.
Qed.

(** X17.  In a finished run the stored category matrix is the indicator
    matrix itself: normalizing it (line 68) changes nothing. *)
Theorem normalization_keeps_category_matrix
    (Category0 : list pyval) (cosine : ndarray) (model : Model) :
  train Category0 cosine = Ok model →
  build_category_match_matrix (str_strip <$> Category0)
    (model_unique_preferences model)
  = Ok (model_category_match_matrix model).
Proof.
  intros (M & H0 & _ & HM & _ & Hnorm & _)%train_inv.
  rewrite HM. f_equal. symmetry.
  eapply normalize_matrix_zero_one; [|exact Hnorm].
  by eapply build_category_match_matrix_zero_one.
Qed.

Example scenario_train :
  train scenario_categories scenario_cosine = Ok scenario_model.
Proof. vm_compute. reflexivity. Qed.

Lemma normalization_keeps_category_matrix_witness :
  build_category_match_matrix (str_strip <$> scenario_categories)
    (model_unique_preferences scenario_model)
  = Ok (model_category_match_matrix scenario_model).
Proof.
  apply (normalization_keeps_category_matrix scenario_categories
           scenario_cosine scenario_model).
  exact scenario_train.
Defined.

(** X18.  In a finished run the stored content similarity and the stored
    hybrid similarity each either have all entries equal, or have all
    entries between 0 and 1 with both 0 and 1 among them. *)
Theorem stored_matrices_range
    (Category0 : list pyval) (cosine : ndarray) (model : Model) :
  train Category0 cosine = Ok model →
  ((∃ v, is_min (model_content_similarity model) v
         ∧ is_max (model_content_similarity model) v)
   ∨ (in_unit_interval (model_content_similarity model)
      ∧ is_min (model_content_similarity model) 0%Qc
      ∧ is_max (model_content_similarity model) 1%Qc))
  ∧ ((∃ v, is_min (model_hybrid_similarity model) v
           ∧ is_max (model_hybrid_similarity model) v)
     ∨ (in_unit_interval (model_hybrid_similarity model)
        ∧ is_min (model_hybrid_similarity model) 0%Qc
        ∧ is_max (model_hybrid_similarity model) 1%Qc)).
Proof.
  intros (M & H0 & _ & _ & HC & _ & _ & HH)%train_inv.
  split.
  - apply normalize_matrix_inv in HC as (mn & mx & Hmin & Hmax & ->).
    destruct (decide (mx = mn)) as [->|Hne]; [left; eauto|].
    right. by eapply normalize_matrix_spread.
  - apply normalize_matrix_inv in HH as (mn & mx & Hmin & Hmax & ->).
    destruct (decide (mx = mn)) as [->|Hne]; [left; eauto|].
    right. by eapply normalize_matrix_spread.
Qed.

Lemma stored_matrices_range_witness :
  ((∃ v, is_min (model_content_similarity scenario_model) v
         ∧ is_max (model_content_similarity scenario_model) v)
   ∨ (in_unit_interval (model_content_similarity scenario_model)
      ∧ is_min (model_content_similarity scenario_model) 0%Qc
      ∧ is_max (model_content_similarity scenario_model) 1%Qc))
  ∧ ((∃ v, is_min (model_hybrid_similarity scenario_model) v
           ∧ is_max (model_hybrid_similarity scenario_model) v)
     ∨ (in_unit_interval (model_hybrid_similarity scenario_model)
        ∧ is_min (model_hybrid_similarity scenario_model) 0%Qc
        ∧ is_max (model_hybrid_similarity scenario_model) 1%Qc)).
Proof.
  apply (stored_matrices_range scenario_categories scenario_cosine
           scenario_model).
  exact scenario_train.
Defined.

Lemma elem_of_token_set x s :
  x ∈ token_set s ↔ ∃ t, t ∈ split_comma s ∧ x = lower (strip t).
Proof.
  unfold token_set. rewrite elem_of_list_to_set, list_elem_of_fmap.
  split.
  - intros (y & -> & (t & -> & Ht)%list_elem_of_fmap). eauto.
  - intros (t & Ht & ->). eexists. split; [done|].
    apply list_elem_of_fmap. eauto.
Qed.

(** X19.  In a finished run over [Category] cells that are strings, every
    label of the vocabulary is carried by some destination and every
    destination carries some label: no column and no row of the stored
    category matrix is all zero. *)
Theorem category_matrix_has_no_zero_row_or_column
    (cs : list string) (cosine : ndarray) (model : Model) :
  train (PyStr <$> cs) cosine = Ok model →
  (∀ k p, model_unique_preferences model !! k = Some p →
     ∃ i, model_category_match_matrix model !! i ≫= (.!! k) = Some 1%Qc)
  ∧ (∀ i c, cs !! i = Some c →
       ∃ k, model_category_match_matrix model !! i ≫= (.!! k) = Some 1%Qc).
Proof.
  intros Htrain.
  pose proof Htrain as (M & H0 & Hv & HM & _ & Hnorm & _)%train_inv.
  assert (model_category_match_matrix model = M) as ->.
  { eapply normalize_matrix_zero_one; [|exact Hnorm].
    by eapply build_category_match_matrix_zero_one. }
  destruct (unique_preferences_PyStr cs) as (v & Hv' & Hmem).
  rewrite Hv in Hv'. injection Hv' as <-.
  split.
  - intros k p Hp.
    assert (p ∈ model_unique_preferences model) as Hin
      by (by eapply list_elem_of_lookup_2).
    apply Hmem in Hin as (c & t & Hc & Ht & ->).
    apply list_elem_of_lookup_1 in Hc as [i Hi]. exists i.
    rewrite (build_category_match_matrix_indicator cs _ M i k c (strip t))
      by done.
    rewrite decide_True; [done|]. apply elem_of_token_set. eauto.
  - intros i c Hi.
    destruct (split_comma c) as [|t ts] eqn:Et.
    { by destruct (split_comma_not_nil c). }
    assert (strip t ∈ model_unique_preferences model) as Hin.
    { apply Hmem. exists c, t. split; [by eapply list_elem_of_lookup_2|].
      split; [rewrite Et; left|done]. }
    apply list_elem_of_lookup_1 in Hin as [k Hk]. exists k.
    rewrite (build_category_match_matrix_indicator cs _ M i k c (strip t))
      by done.
    rewrite decide_True; [done|]. apply elem_of_token_set.
    exists t. split; [rewrite Et; left|done].
Qed.

Lemma category_matrix_has_no_zero_row_or_column_witness :
  (∀ k p, model_unique_preferences scenario_model !! k = Some p →
     ∃ i, model_category_match_matrix scenario_model !! i ≫= (.!! k)
          = Some 1%Qc)
  ∧ (∀ i c, ["Beach, Adventure"; "beach,Culture"] !! i = Some c →
       ∃ k, model_category_match_matrix scenario_model !! i ≫= (.!! k)
            = Some 1%Qc).
Proof.
  apply (category_matrix_has_no_zero_row_or_column
           ["Beach, Adventure"; "beach,Culture"] scenario_cosine
           scenario_model).
  exact scenario_train.
Defined.

(** * Properties of the home page labels and of the index map *)

Lemma elem_of_concat {A} (x : A) (ls : list (list A)) :
  x ∈ concat ls ↔ ∃ l, x ∈ l ∧ l ∈ ls.
Proof.
  induction ls as [|l ls IH]; simpl.
  - split; [by intros ?%elem_of_nil|]. by intros (? & _ & ?%elem_of_nil).
  - rewrite elem_of_app, IH. split.
    + intros [H|(l' & H & Hl')]; [exists l|exists l']; split; auto;
        by constructor.
    + intros (l' & H & [->|Hl']%elem_of_cons); eauto.
Qed.

Lemma sorted_set_ext (a b : list string) :
  (∀ x, x ∈ a ↔ x ∈ b) → sorted_set a = sorted_set b.
Proof.
  intros H. unfold sorted_set. do 2 f_equal.
  apply set_eq. intros x. by rewrite !elem_of_list_to_set.
Qed.

Lemma for_each_py_split_PyStr (cs : list string) :
  for_each py_split (PyStr <$> cs) = Ok (split_comma <$> cs).
Proof.
  induction cs as [|c cs IH]; [done|].
  rewrite !fmap_cons. cbn [for_each py_split mbind result_bind].
  by rewrite IH.
Qed.

Lemma dropna_PyStr (cs : list string) : dropna (PyStr <$> cs) = PyStr <$> cs.
Proof.
  unfold dropna. induction cs as [|c cs IH]; [done|].
  rewrite fmap_cons, filter_cons_True by done. by rewrite IH.
Qed.

(** X20.  Over a catalog whose [Category] cells are strings the labels
    offered on the home page are exactly the builder's vocabulary, in the
    same order. *)
Theorem home_preferences_are_the_vocabulary
    (destinations_df : list Destination) (cs : list string) :
  dest_Category <$> destinations_df = PyStr <$> cs →
  home_preferences destinations_df
  = unique_preferences (str_strip <$> (dest_Category <$> destinations_df)).
Proof.
  intros E. unfold home_preferences. rewrite E.
  rewrite dropna_PyStr, for_each_py_split_PyStr.
  cbn [mbind result_bind].
  destruct (unique_preferences_PyStr cs) as (v & Hv & Hmem).
  rewrite Hv. f_equal.
  unfold unique_preferences in Hv.
  destruct (for_each _ _) as [prefs|]; [|done].
  cbn [mbind result_bind] in Hv. injection Hv as <-.
  apply sorted_set_ext. intros x.
  rewrite <-(elem_of_sorted_set x prefs), Hmem.
  rewrite list_elem_of_fmap. split.
  - intros (t & -> & Ht). apply elem_of_concat in Ht as (toks & Ht & Htoks).
    apply list_elem_of_fmap in Htoks as (c & -> & Hc). eauto.
  - intros (c & t & Hc & Ht & ->). exists t. split; [done|].
    apply elem_of_concat. exists (split_comma c). split; [done|].
    apply list_elem_of_fmap. eauto.
Qed.

Lemma home_preferences_are_the_vocabulary_witness :
  home_preferences scenario_catalog
  = unique_preferences (str_strip <$> (dest_Category <$> scenario_catalog)).
Proof.
  apply (home_preferences_are_the_vocabulary scenario_catalog
           ["Beach,Adventure"; "Beach,Culture"; "Culture"]).
  reflexivity.
Defined.









Lemma destination_indices_snoc (Name : list string) n :
  destination_indices (Name ++ [n])
  = <[n := length Name]> (destination_indices Name).
Proof.
  unfold destination_indices. rewrite imap_app, foldl_app. cbn.
  by rewrite Nat.add_0_r.
Qed.

Lemma destination_indices_lookup (Name : list string) n i :
  destination_indices Name !! n = Some i
  ↔ Name !! i = Some n ∧ ∀ j, (i < j)%nat → Name !! j ≠ Some n.
Proof.
  revert i. induction Name as [|x l IH] using rev_ind; intros i.
  - unfold destination_indices. cbn. rewrite lookup_empty. split; [done|].
    by intros [? _].
  - rewrite destination_indices_snoc.
    destruct (decide (x = n)) as [->|Hne].
    + rewrite lookup_insert_eq. split.
      * intros [= <-]. split.
        -- by rewrite lookup_app_r, Nat.sub_diag by lia.
        -- intros j Hj. rewrite lookup_ge_None_2; [done|].
           rewrite length_app. simpl. lia.
      * intros [Hi Hlast]. f_equal.
        assert (i < length (l ++ [n]))%nat as Hlt
          by (by eapply lookup_lt_Some).
        rewrite length_app in Hlt. simpl in Hlt.
        destruct (decide (i = length l)) as [->|Hneq]; [done|].
        destruct (Hlast (length l)); [lia|].
        by rewrite lookup_app_r, Nat.sub_diag by lia.
    + rewrite lookup_insert_ne by done. rewrite IH. split.
      * intros [Hi Hlast]. split.
        -- by rewrite lookup_app_l by (by eapply lookup_lt_Some).
        -- intros j Hj. destruct (decide (j < length l)%nat).
           ++ rewrite lookup_app_l by done. by apply Hlast.
           ++ destruct (decide (j = length l)) as [->|].
              ** rewrite lookup_app_r, Nat.sub_diag by lia. cbn. congruence.
              ** rewrite lookup_ge_None_2; [done|].
                 rewrite length_app. simpl. lia.
      * intros [Hi Hlast].
        assert (i < length l)%nat as Hlt.
        { assert (i < length (l ++ [x]))%nat as Hlt
            by (by eapply lookup_lt_Some).
          rewrite length_app in Hlt. simpl in Hlt.
          destruct (decide (i = length l)) as [->|]; [|lia].
          rewrite lookup_app_r, Nat.sub_diag in Hi by lia.
          cbn in Hi. congruence. }
        rewrite lookup_app_l in Hi by done. split; [done|].
        intros j Hj Hjn. apply (Hlast j Hj).
        by rewrite lookup_app_l by (by eapply lookup_lt_Some).
Qed.

Lemma destination_indices_dom (Name : list string) :
  dom (destination_indices Name) = list_to_set Name.
Proof.
  induction Name as [|x l IH] using rev_ind.
  - unfold destination_indices. cbn. by rewrite dom_empty_L.
  - rewrite destination_indices_snoc, dom_insert_L, IH, list_to_set_app_L.
    set_solver.
Qed.

(** X22.  The index map sends a name to the number of the last row that
    carries it, it is defined exactly on the names of the catalog, and when
    the names are distinct it inverts the row numbering. *)
Theorem destination_indices_spec (Name : list string) :
  (∀ n i, destination_indices Name !! n = Some i
          ↔ Name !! i = Some n ∧ ∀ j, (i < j)%nat → Name !! j ≠ Some n)
  ∧ (∀ n, is_Some (destination_indices Name !! n) ↔ n ∈ Name)
  ∧ (NoDup Name →
     ∀ n i, destination_indices Name !! n = Some i ↔ Name !! i = Some n).
Proof.
  split; [apply destination_indices_lookup|]. split.
  - intros n. rewrite <-elem_of_dom, destination_indices_dom.
    apply elem_of_list_to_set.
  - intros Hnd n i. rewrite destination_indices_lookup. split; [tauto|].
    intros Hi. split; [done|]. intros j Hj Hjn.
    pose proof (NoDup_lookup _ _ _ _ Hnd Hi Hjn). lia.
Qed.

Lemma destination_indices_spec_witness :
  destination_indices ["A"; "B"; "C"] !! "B" = Some 1%nat
  ↔ ["A"; "B"; "C"] !! 1%nat = Some "B".
Proof.
  apply (destination_indices_spec ["A"; "B"; "C"]).
  repeat constructor; set_solver.
Defined.

(** * Symmetry of the hybrid matrix *)

Lemma lookup_map {A B} (f : A → B) (l : list A) i :
  map f l !! i = f <$> l !! i.
Proof. exact (list_lookup_fmap f l i). Qed.

Lemma entry_mat_map f M i j : entry (mat_map f M) i j = f <$> entry M i j.
Proof.
  unfold entry, mat_map. rewrite lookup_map.
  destruct (M !! i) as [row|]; [|done]. cbn. by rewrite lookup_map.
Qed.

Lemma entry_mat_plus A B i j :
  entry (mat_plus A B) i j
  = a ← entry A i j ; b ← entry B i j ; Some (a + b)%Qc.
Proof.
  unfold entry, mat_plus. rewrite lookup_zip_with.
  destruct (A !! i) as [ra|]; [|done].
  destruct (B !! i) as [rb|]; cbn.
  - rewrite lookup_zip_with. by destruct (ra !! j), (rb !! j).
  - by destruct (ra !! j).
Qed.

Lemma is_symmetric_mat_map f M : is_symmetric M → is_symmetric (mat_map f M).
Proof. intros H i j. by rewrite !entry_mat_map, H. Qed.

Lemma is_symmetric_mat_plus A B :
  is_symmetric A → is_symmetric B → is_symmetric (mat_plus A B).
Proof. intros HA HB i j. by rewrite !entry_mat_plus, HA, HB. Qed.

Lemma is_symmetric_normalize M M' :
  normalize_matrix M = Ok M' → is_symmetric M → is_symmetric M'.
Proof.
  intros (mn & mx & _ & _ & ->)%normalize_matrix_inv Hsym.
  destruct (decide (mx = mn)); [done|]. by apply is_symmetric_mat_map.
Qed.

Lemma map_nth_seq {A} (l : list A) d :
  map (λ j, nth j l d) (seq 0 (length l)) = l.
Proof.
  induction l as [|x l IH]; [done|].
  cbn [length seq map nth]. f_equal.
  rewrite <-seq_shift, map_map. exact IH.
Qed.

Lemma transpose_involutive M n p :
  shape M = replicate n (S p) → transpose (transpose M) = M.
Proof.
  intros Hsh.
  assert (length M = n) as Hlen.
  { apply (f_equal length) in Hsh. unfold shape in Hsh.
    by rewrite length_fmap, length_replicate in Hsh. }
  destruct n as [|n'].
  { destruct M; [done|discriminate]. }
  assert (ncols M = S p) as Hc by (by eapply ncols_replicate).
  assert (ncols (transpose M) = length M) as Hct
    by (apply ncols_transpose; lia).
  unfold transpose at 1. rewrite Hct.
  trans (map (λ i, nth i M []) (seq 0 (length M))); [|apply map_nth_seq].
  apply map_ext_in.
  intros i Hi%in_seq. unfold transpose. rewrite Hc, map_map.
  assert (length (nth i M []) = S p) as Hrow.
  { assert (Forall (λ row, length row = S p) M) as Hall.
    { apply (Forall_fmap length (λ k, k = S p)). unfold shape in Hsh.
      rewrite Hsh. apply Forall_forall. by intros k [-> _]%elem_of_replicate. }
    rewrite Forall_forall in Hall. apply Hall.
    apply list_elem_of_In, nth_In. lia. }
  trans (map (λ j, nth j (nth i M []) 0%Qc) (seq 0 (S p)));
    [|rewrite <-Hrow; apply map_nth_seq].
  apply map_ext. intros j.
  rewrite <-(map_nth (λ row, nth j row 0%Qc) M [] i).
  by destruct j.
Qed.

Lemma inner_comm u v : inner u v = inner v u.
Proof.
  unfold inner. revert v. induction u as [|x u IH]; intros [|y v]; try done.
  cbn [zip_with foldr]. by rewrite IH, (Qcmult_comm x y).
Qed.

Lemma is_symmetric_dot_transpose M n p :
  shape M = replicate n (S p) → is_symmetric (dot M (transpose M)).
Proof.
  intros Hsh i j. unfold entry, dot.
  rewrite (transpose_involutive M n p Hsh).
  rewrite !lookup_map.
  destruct (M !! i) as [ri|] eqn:Ei; destruct (M !! j) as [rj|] eqn:Ej; cbn.
  - rewrite !lookup_map, Ei, Ej. cbn. by rewrite inner_comm.
  - by rewrite lookup_map, Ej.
  - by rewrite lookup_map, Ei.
  - done.
Qed.

(** X23.  In a finished run over [Category] cells that are strings, a
    symmetric content-similarity matrix gives a symmetric hybrid
    matrix. *)
Theorem hybrid_similarity_symmetric
    (cs : list string) (cosine : ndarray) (model : Model) :
  train (PyStr <$> cs) cosine = Ok model →
  is_symmetric cosine →
  is_symmetric (model_hybrid_similarity model).
Proof.
  intros Htrain Hsym.
  pose proof Htrain as (M & H0 & Hv & HM & HC & Hnorm & Hadd & HH)%train_inv.
  assert (model_category_match_matrix model = M) as EM.
  { eapply normalize_matrix_zero_one; [|exact Hnorm].
    by eapply build_category_match_matrix_zero_one. }
  rewrite EM in Hadd.
  rewrite str_strip_fmap_PyStr in HM.
  destruct (build_category_match_matrix_PyStr (strip <$> cs)
              (model_unique_preferences model)) as (M2 & HM2 & Hsh).
  rewrite HM in HM2. injection HM2 as <-. rewrite length_fmap in Hsh.
  destruct (model_unique_preferences model) as [|p0 v0] eqn:Ev.
  { destruct cs as [|c cs']; [|by eapply unique_preferences_not_nil in Hv].
    destruct M; [done|discriminate]. }
  eapply is_symmetric_normalize; [exact HH|].
  unfold mat_add in Hadd. destruct (decide _); [|done].
  injection Hadd as <-.
  apply is_symmetric_mat_plus; apply is_symmetric_mat_map.
  - by eapply is_symmetric_normalize.
  - by eapply is_symmetric_dot_transpose.
Qed.

Lemma hybrid_similarity_symmetric_witness :
  is_symmetric (model_hybrid_similarity scenario_model).
Proof.
  apply (hybrid_similarity_symmetric ["Beach, Adventure"; "beach,Culture"]
           scenario_cosine scenario_model).
  - exact scenario_train.
  - intros [|[|i]] [|[|j]]; reflexivity.
Defined.

(** * The scorer's handler *)

(** X24.  When either argument is not a string (a missing cell, a number,
    None) the scorer's handler returns 0. *)
Theorem score_of_non_string_is_zero
    (query_categories destination_categories : pyval) :
  (∀ s, query_categories ≠ PyStr s) ∨ (∀ s, destination_categories ≠ PyStr s) →
  calculate_similarity_score query_categories destination_categories = 0%Qc.
Proof. apply calculate_similarity_score_not_str. Qed.

Lemma score_of_non_string_is_zero_witness :
  calculate_similarity_score PyNaN (PyStr "Beach") = 0%Qc.
Proof.
  apply (score_of_non_string_is_zero PyNaN (PyStr "Beach")).
  left. discriminate.
Defined.

(** * Loading and the home page *)

Lemma dest_categories_inv (Category : list pyval) cats :
  dest_categories Category = Some cats →
  ∃ cs, Category = PyStr <$> cs
        ∧ cats = (λ s, strip <$> split_comma s) <$> cs.
Proof.
  unfold dest_categories. revert cats.
  induction Category as [|cell l IH]; intros cats H.
  - injection H as <-. by exists [].
  - cbn [mapM] in H. destruct cell as [s| | |]; try done.
    cbn [mbind option_bind] in H.
    destruct (mapM _ l) as [cats'|] eqn:E; [|done].
    cbn in H. injection H as <-.
    destruct (IH cats' eq_refl) as (cs & -> & ->).
    by exists (s :: cs).
Qed.

Lemma concat_fmap_strip_split (cs : list string) :
  concat ((λ s, strip <$> split_comma s) <$> cs)
  = strip <$> concat (split_comma <$> cs).
Proof.
  induction cs as [|c cs IH]; [done|].
  rewrite !fmap_cons. cbn [concat]. by rewrite fmap_app, IH.
Qed.

(** X25.  If the module loads (line 25 raises nothing), every [Category]
    cell is a string and the home page cannot fail on them: its preference
    list is the sorted set of the labels computed at load time. *)
Theorem loaded_catalog_feeds_home
    (destinations_df : list Destination) (cats : list (list string)) :
  dest_categories (dest_Category <$> destinations_df) = Some cats →
  Forall (λ d, ∃ s, dest_Category d = PyStr s) destinations_df
  ∧ home_preferences destinations_df = Ok (sorted_set (concat cats)).
Proof.
  intros (cs & Hcs & ->)%dest_categories_inv. split.
  - apply Forall_forall. intros d Hd.
    assert (dest_Category d ∈ PyStr <$> cs) as Hin.
    { rewrite <-Hcs. apply list_elem_of_fmap. eauto. }
    apply list_elem_of_fmap in Hin as (s & -> & _). eauto.
  - unfold home_preferences.
    rewrite Hcs, dropna_PyStr, for_each_py_split_PyStr.
    cbn [mbind result_bind]. by rewrite concat_fmap_strip_split.
Qed.

Lemma loaded_catalog_feeds_home_witness :
  Forall (λ d, ∃ s, dest_Category d = PyStr s) scenario_catalog
  ∧ home_preferences scenario_catalog
    = Ok (sorted_set
            (concat [["Beach"; "Adventure"]; ["Beach"; "Culture"];
                     ["Culture"]])).
Proof.
  apply (loaded_catalog_feeds_home scenario_catalog
           [["Beach"; "Adventure"]; ["Beach"; "Culture"]; ["Culture"]]).
  reflexivity.
Defined.
